(** * nlpmodels: encoder stack and embedding utilities

    A shallow embedding of

    - [nlpmodels/utils/utils.py]: [set_seed_everywhere], [get_cosine_similar];
    - [nlpmodels/models/transformer_blocks/encoder.py]: [EncoderBlock],
      [CompositeEncoder].

    Python objects live in a store and are handled through references, so
    that aliasing is visible; exceptions are values of [result]. The tensor
    library is used through the operations the source calls: indexing,
    [nn.CosineSimilarity], [nn.BatchNorm1d]. Floating-point scalars are kept
    behind the interface [Scalar]. *)

From stdpp Require Import gmap strings list sorting.
From Stdlib Require Import Ascii ZArith QArith Sorted Permutation Lia.

Open Scope string_scope.
Open Scope list_scope.
Open Scope Z_scope.

(** ** Python results: a value or a raised exception *)

Module Py.

(** The exceptions the modelled code can raise. [KeyError] carries the
    missing key, as Python's does. *)
Inductive exn : Type :=
| KeyError (key : string)
| IndexError (index : Z) (size : nat)
| ValueError (msg : string)
| RuntimeError (msg : string)
| TypeError (msg : string).

Inductive result (A : Type) : Type :=
| Ok (a : A)
| Raise (e : exn).

Arguments Ok {A} a.
Arguments Raise {A} e.

#[export] Instance result_ret : MRet result := fun A a => Ok a.

#[export] Instance result_bind : MBind result := fun A B f r =>
  match r with
  | Ok a => f a
  | Raise e => Raise e
  end.

(** [l * n] on a Python list: [n] copies of the elements of [l], none when
    [n <= 0]. The elements are copied as they are: a list of references
    repeats the same references. *)
Definition list_mul {A : Type} (l : list A) (n : Z) : list A :=
  List.concat (replicate (Z.to_nat n) l).

(** [str.lower] on the ASCII range: the letters [A]..[Z] are moved to
    [a]..[z], every other byte is kept. *)
Definition ascii_lower (c : ascii) : ascii :=
  let n := nat_of_ascii c in
  if ((65 <=? n) && (n <=? 90))%nat then ascii_of_nat (n + 32) else c.

Fixpoint lower (s : string) : string :=
  match s with
  | EmptyString => EmptyString
  | String c s' => String (ascii_lower c) (lower s')
  end.

(** A [dict] with string keys, in insertion order. *)
Definition dict (V : Type) : Type := list (string * V).

(** [d[k]] *)
Definition dict_getitem {V : Type} (d : dict V) (k : string) : result V :=
  match List.find (fun kv => String.eqb (fst kv) k) d with
  | Some kv => Ok (snd kv)
  | None => Raise (KeyError k)
  end.

(** [w in (a, b, c)]: equality against each component in turn. *)
Definition str_in (w : string) (t : list string) : bool :=
  existsb (String.eqb w) t.

(** [t[i]] on the first axis of a tensor holding [rows], for an index that
    fits a 64-bit integer: negative indices count from the end, anything
    outside raises [IndexError]. Larger Python integers, which the tensor
    library refuses with an overflow error of its own, are not modelled. *)
Definition tensor_getitem {R : Type} (rows : list R) (i : Z) : result R :=
  let n := Z.of_nat (length rows) in
  let j := if i <? 0 then i + n else i in
  if (0 <=? j) && (j <? n) then
    match rows !! Z.to_nat j with
    | Some r => Ok r
    | None => Raise (IndexError i (length rows))
    end
  else Raise (IndexError i (length rows)).

(** [sorted(l, key=key, reverse=True)]. CPython reverses the list, sorts it
    in ascending order with a stable sort that compares keys with [<] only,
    and reverses the result. The ascending stable sort is written as an
    insertion sort. *)
Section Sorted.
Context {A K : Type} (key : A → K) (lt : K → K → bool).

Fixpoint insert_stable (x : A) (l : list A) : list A :=
  match l with
  | [] => [x]
  | y :: l' =>
      if lt (key y) (key x) then y :: insert_stable x l' else x :: y :: l'
  end.

Definition sort_stable (l : list A) : list A :=
  fold_right insert_stable [] l.

Definition sorted_reverse (l : list A) : list A :=
  rev (sort_stable (rev l)).

(** Two keys tie when neither is below the other. *)
Definition tied (a b : K) : bool := negb (lt a b) && negb (lt b a).

(** The order of two elements [x], [y] with [x] before [y]: [y] is not
    below [x] (ascending), [x] is not below [y] (descending). *)
Definition ascending (x y : A) : Prop := lt (key y) (key x) = false.

Definition descending (x y : A) : Prop := lt (key x) (key y) = false.

End Sorted.

End Py.

Import Py.

(** ** [nlpmodels/utils/utils.py] *)

Module Utils.

(** *** [set_seed_everywhere] *)

(** The random-number sources the function touches: NumPy's global
    generator, torch's default (CPU) generator and one generator per CUDA
    device. A generator is represented by the seed it was last given. *)
Record rng_state : Type := {
  np_random : option Z;
  torch_default : option Z;
  torch_cuda : list (option Z);
}.

Definition np_random_seed (seed : Z) (s : rng_state) : rng_state :=
  {| np_random := Some seed;
     torch_default := torch_default s;
     torch_cuda := torch_cuda s |}.

(** [torch.manual_seed] seeds the default generator and every CUDA
    device's generator. *)
Definition torch_manual_seed (seed : Z) (s : rng_state) : rng_state :=
  {| np_random := np_random s;
     torch_default := Some seed;
     torch_cuda := List.map (fun _ => Some seed) (torch_cuda s) |}.

Definition torch_cuda_manual_seed_all (seed : Z) (s : rng_state) : rng_state :=
  {| np_random := np_random s;
     torch_default := torch_default s;
     torch_cuda := List.map (fun _ => Some seed) (torch_cuda s) |}.

Definition set_seed_everywhere (s : rng_state) : rng_state :=
  let seed := 42 in
  let s := np_random_seed seed s in
  let s := torch_manual_seed seed s in
  torch_cuda_manual_seed_all seed s.

(** *** [get_cosine_similar] *)

(** What the function needs from the tensor library: the rows of the
    embedding tensor, [nn.CosineSimilarity(dim=0)] on two rows, and the
    [<] that [sorted] uses on the resulting scores. *)
Class Similarity (Vec Score : Type) : Type := {
  cos : Vec → Vec → Score;
  score_lt : Score → Score → bool;
}.

Section GetCosineSimilar.
Context {Vec Score : Type} `{!Similarity Vec Score}.

(** The body of the [for] loop, for one item of [word_to_idx.items()]. *)
Definition distances_step (target_word : string) (embeddings : list Vec)
    (word_embedding : Vec) (distances : list (string * Score))
    (item : string * Z) : result (list (string * Score)) :=
  let '(word, index) := item in
  if str_in word ["<MASK>"; target_word; "<UNK>"] then Ok distances
  else
    row ← tensor_getitem embeddings index;
    Ok (distances ++ [(word, cos word_embedding row)]).

Fixpoint distances_loop (target_word : string) (embeddings : list Vec)
    (word_embedding : Vec) (items : list (string * Z))
    (distances : list (string * Score)) : result (list (string * Score)) :=
  match items with
  | [] => Ok distances
  | item :: items' =>
      distances' ← distances_step target_word embeddings word_embedding
                     distances item;
      distances_loop target_word embeddings word_embedding items' distances'
  end.

Definition get_cosine_similar (target_word : string) (word_to_idx : dict Z)
    (embeddings : list Vec) : result (list (string * Score)) :=
  index ← dict_getitem word_to_idx (lower target_word);
  word_embedding ← tensor_getitem embeddings index;
  distances ← distances_loop target_word embeddings word_embedding
                word_to_idx [];
  Ok (sorted_reverse snd score_lt distances).

(** Every index of the vocabulary addresses a row of the embedding
    tensor. *)
Definition indexes_rows (word_to_idx : dict Z) (embeddings : list Vec) : Prop :=
  ∀ w i, In (w, i) word_to_idx → ∃ r, tensor_getitem embeddings i = Ok r.

(** The tokens the loop does not skip. *)
Definition kept (target_word : string) (w : string) : bool :=
  negb (str_in w ["<MASK>"; target_word; "<UNK>"]).

(** What the loop appends for an item it does not skip: the token, paired
    with the similarity of the target's row and the token's row. *)
Definition scored (embeddings : list Vec) (word_embedding : Vec)
    (item : string * Z) (pair : string * Score) : Prop :=
  pair.1 = item.1 ∧
  ∃ r, tensor_getitem embeddings item.2 = Ok r ∧ pair.2 = cos word_embedding r.

End GetCosineSimilar.

End Utils.

(** ** Stateful Python code: results together with the state left behind *)

Module State.

(** A computation over a state [S]: it returns or raises, and in both cases
    leaves a state behind (what was mutated before an exception stays
    mutated). *)
Definition St (S A : Type) : Type := S → result A * S.

#[export] Instance St_ret {S : Type} : MRet (St S) := fun A a s => (Ok a, s).

#[export] Instance St_bind {S : Type} : MBind (St S) := fun A B f m s =>
  match m s with
  | (Ok a, s') => f a s'
  | (Raise e, s') => (Raise e, s')
  end.

Definition raise {S A : Type} (e : exn) : St S A := fun s => (Raise e, s).

Definition get {S : Type} : St S S := fun s => (Ok s, s).

Definition put {S : Type} (s : S) : St S unit := fun _ => (Ok tt, s).

Definition lift_result {S A : Type} (r : result A) : St S A :=
  fun s => (r, s).

End State.

Import State.

(** ** The tensor library, as far as the encoder uses it *)

Module Torch.

(** Floating-point scalars: literals, the four operations and the square
    root. Nothing is assumed of them. *)
Class Scalar (F : Type) : Type := {
  s_const : Q → F;
  s_add : F → F → F;
  s_sub : F → F → F;
  s_mul : F → F → F;
  s_div : F → F → F;
  s_sqrt : F → F;
}.

(** A tensor: its shape and its elements in row-major order. *)
Record Tensor (F : Type) : Type := {
  shape : list nat;
  data : list F;
}.

Arguments shape {F} t.
Arguments data {F} t.

Section BatchNorm.
Context {F : Type} `{!Scalar F}.

Definition s_of_nat (n : nat) : F := s_const (inject_Z (Z.of_nat n)).

Definition s_sum (xs : list F) : F := fold_left s_add xs (s_const 0).

Definition mean (xs : list F) : F := s_div (s_sum xs) (s_of_nat (length xs)).

Definition sq_dev (m : F) (x : F) : F := s_mul (s_sub x m) (s_sub x m).

(** Variance with divisor [n] (used to normalize) and with divisor [n - 1]
    (used for the running estimate). *)
Definition var_biased (xs : list F) : F :=
  mean (List.map (sq_dev (mean xs)) xs).

Definition var_unbiased (xs : list F) : F :=
  s_div (s_sum (List.map (sq_dev (mean xs)) xs))
        (s_of_nat (length xs - 1)).

(** An input [(N, C, L)] (or [(N, C)], with [L = 1]) is stored row-major:
    the element at flat position [i] belongs to channel [(i / L) mod C]. *)
Definition channel_of (C L i : nat) : nat := ((i / L) mod C)%nat.

Definition channel_values (C L : nat) (xs : list F) (c : nat) : list F :=
  List.map snd
    (List.filter (fun ix => Nat.eqb (channel_of C L (fst ix)) c)
       (combine (seq 0 (length xs)) xs)).

(** [(x - mean) / sqrt(var + eps)] *)
Definition standardize (m v eps x : F) : F :=
  s_div (s_sub x m) (s_sqrt (s_add v eps)).

(** The learned scale and shift, when the layer has them. *)
Definition affine_elem (weight bias : option (list F)) (c : nat) (x : F) : F :=
  let x := match weight with
           | Some w => s_mul x (nth c w (s_const 1))
           | None => x
           end in
  match bias with
  | Some b => s_add x (nth c b (s_const 0))
  | None => x
  end.

Definition batch_norm_data (C L : nat) (means vars : list F)
    (weight bias : option (list F)) (eps : F) (xs : list F) : list F :=
  imap (fun i x =>
          let c := channel_of C L i in
          affine_elem weight bias c
            (standardize (nth c means (s_const 0)) (nth c vars (s_const 1))
               eps x)) xs.

(** [(1 - f) * old + f * new], channel by channel. *)
Definition running_update (f : F) (old new : list F) : list F :=
  List.map (fun on => s_add (s_mul (s_sub (s_const 1) f) (fst on))
                            (s_mul f (snd on)))
           (combine old new).

(** The state of a [torch.nn.BatchNorm1d] module. *)
Record BatchNorm1d : Type := {
  num_features : nat;
  eps : F;
  momentum : option F;
  weight : option (list F);
  bias : option (list F);
  running_mean : option (list F);
  running_var : option (list F);
  num_batches_tracked : option nat;
  training : bool;
}.

(** [nn.BatchNorm1d(num_features, eps=1e-05, momentum=momentum,
    affine=affine, track_running_stats=True)]; a module starts in training
    mode. Buffers of negative size cannot be created. *)
Definition BatchNorm1d_new (n : Z) (momentum : option F) (affine : bool)
  : result BatchNorm1d :=
  if n <? 0 then
    Raise (RuntimeError "Trying to create tensor with negative dimension")
  else
    let k := Z.to_nat n in
    Ok {| num_features := k;
          eps := s_const (1 # 100000);
          momentum := momentum;
          weight := if affine then Some (replicate k (s_const 1)) else None;
          bias := if affine then Some (replicate k (s_const 0)) else None;
          running_mean := Some (replicate k (s_const 0));
          running_var := Some (replicate k (s_const 1));
          num_batches_tracked := Some 0%nat;
          training := true |}.

(** [_check_input_dim]: the input is [(N, C)] or [(N, C, L)]. *)
Definition bn_dims (sh : list nat) : result (nat * nat * nat) :=
  match sh with
  | [n; c] => Ok (n, c, 1%nat)
  | [n; c; l] => Ok (n, c, l)
  | _ => Raise (ValueError "expected 2D or 3D input")
  end.

Definition has_size (n : nat) (o : option (list F)) : bool :=
  match o with
  | Some l => Nat.eqb (length l) n
  | None => true
  end.

(** The statistics an input is normalized with: those of the batch, one
    mean and one variance per channel over all the values of the channel, or
    the running estimates. *)
Definition statistics (C L : nat) (xs : list F)
    (r_mean r_var : option (list F)) (use_batch_stats : bool)
  : list F * list F :=
  if use_batch_stats then
    let chans := List.map (channel_values C L xs) (seq 0 C) in
    (List.map mean chans, List.map var_biased chans)
  else (default [] r_mean, default [] r_var).

(** [torch.nn.functional.batch_norm]: the output data and the new running
    statistics. In training mode a channel needs more than one value; the
    buffers and the affine parameters must have one entry per channel of the
    input. *)
Definition batch_norm (N C L : nat) (xs : list F)
    (r_mean r_var weight bias : option (list F)) (use_batch_stats : bool)
    (factor eps : F)
  : result (list F * option (list F) * option (list F)) :=
  if use_batch_stats && Nat.eqb (N * L) 1 then
    Raise (ValueError "Expected more than 1 value per channel when training")
  else if negb (has_size C r_mean && has_size C r_var) then
    Raise (RuntimeError "running_mean should contain C elements")
  else if negb (has_size C weight && has_size C bias) then
    Raise (RuntimeError "weight should contain C elements")
  else
    let '(means, vars) := statistics C L xs r_mean r_var use_batch_stats in
    let ys := batch_norm_data C L means vars weight bias eps xs in
    if use_batch_stats then
      let chans := List.map (channel_values C L xs) (seq 0 C) in
      Ok (ys,
          (fun old => running_update factor old means) <$> r_mean,
          (fun old => running_update factor old (List.map var_unbiased chans))
            <$> r_var)
    else Ok (ys, r_mean, r_var).

(** Training mode uses the statistics of the batch, and so does a module
    without buffers. *)
Definition uses_batch_stats (bn : BatchNorm1d) : bool :=
  training bn
  || bool_decide (running_mean bn = None ∧ running_var bn = None).

(** [_BatchNorm.forward]. The batch counter is advanced before the input is
    normalized; with [momentum=None] the running statistics are a
    cumulative average. The result comes with the module's new state. *)
Definition BatchNorm1d_forward (bn : BatchNorm1d) (input : Tensor F)
  : result (Tensor F) * BatchNorm1d :=
  match bn_dims (shape input) with
  | Raise e => (Raise e, bn)
  | Ok (N, C, L) =>
      let tracking := training bn && bool_decide (is_Some (running_mean bn)) in
      let tracked :=
        if tracking then S <$> num_batches_tracked bn
        else num_batches_tracked bn in
      let factor :=
        match momentum bn with
        | Some m => m
        | None =>
            if tracking then
              match tracked with
              | Some k => s_div (s_const 1) (s_of_nat k)
              | None => s_const 0
              end
            else s_const 0
        end in
      let bn1 := {| num_features := num_features bn; eps := eps bn;
                    momentum := momentum bn; weight := weight bn;
                    bias := bias bn; running_mean := running_mean bn;
                    running_var := running_var bn;
                    num_batches_tracked := tracked;
                    training := training bn |} in
      match batch_norm N C L (data input) (running_mean bn) (running_var bn)
              (weight bn) (bias bn) (uses_batch_stats bn) factor (eps bn) with
      | Raise e => (Raise e, bn1)
      | Ok (ys, r_mean, r_var) =>
          (Ok {| shape := shape input; data := ys |},
           {| num_features := num_features bn; eps := eps bn;
              momentum := momentum bn; weight := weight bn;
              bias := bias bn; running_mean := r_mean;
              running_var := r_var;
              num_batches_tracked := tracked;
              training := training bn |})
      end
  end.

(** The buffers and parameters of a module have [C] entries each. *)
Definition norm_ok (C : nat) (bn : BatchNorm1d) : Prop :=
  has_size C (running_mean bn) = true ∧ has_size C (running_var bn) = true ∧
  has_size C (weight bn) = true ∧ has_size C (bias bn) = true.

End BatchNorm.

Arguments BatchNorm1d F : clear implicits.

End Torch.

Import Torch.

(** ** [nlpmodels/models/transformer_blocks/encoder.py] *)

Module Encoder.

(** A reference to a Python object. *)
Definition loc : Type := nat.

(** The modules the encoder is built from and only calls:
    [MultiHeadedAttention], [PositionWiseFFNLayer] and
    [AddAndNormWithDropoutLayer]. Each is given by the type of its state
    (its parameters) and by its [forward]. A [forward] may raise and may
    have effects of its own (the random numbers of dropout, for one) on an
    environment [Env]. [Mask] is the type of attention masks. *)
Class SubLayers (F Mask Env : Type) : Type := {
  MultiHeadedAttention : Type;
  PositionWiseFFNLayer : Type;
  AddAndNormWithDropoutLayer : Type;
  attention_forward :
    MultiHeadedAttention →
    Tensor F → Tensor F → Tensor F → Mask → St Env (Tensor F);
  feed_forward_forward : PositionWiseFFNLayer → Tensor F → St Env (Tensor F);
  add_norm_forward :
    AddAndNormWithDropoutLayer →
    Tensor F → (Tensor F → St Env (Tensor F)) → St Env (Tensor F);
}.

Section Encoder.
Context {F Mask Env : Type} `{!Scalar F} `{!SubLayers F Mask Env}.

(** *** [EncoderBlock] *)

(** The attributes [__init__] sets. The sub-modules are held by value: all
    of them are copied when the block is deep-copied. *)
Record EncoderBlock : Type := {
  _size : Z;
  _self_attention : MultiHeadedAttention;
  _add_norm_layer_1 : AddAndNormWithDropoutLayer;
  _feed_forward : PositionWiseFFNLayer;
  _add_norm_layer_2 : AddAndNormWithDropoutLayer;
}.

(** The property [size]. *)
Definition size (self : EncoderBlock) : Z := _size self.

Definition EncoderBlock_forward (self : EncoderBlock) (values : Tensor F)
    (mask : Mask) : St Env (Tensor F) :=
  values ← add_norm_forward (_add_norm_layer_1 self) values
              (fun x => attention_forward (_self_attention self) x x x mask);
  values ← add_norm_forward (_add_norm_layer_2 self) values
              (feed_forward_forward (_feed_forward self));
  mret values.

(** *** The store *)

Inductive obj : Type :=
| OBlock (b : EncoderBlock)
| OBatchNorm (bn : BatchNorm1d F).

Record World : Type := {
  heap : gmap loc obj;
  env : Env;
}.

(** Run a sub-module's computation: it acts on the environment only. *)
Definition in_env {A : Type} (m : St Env A) : St World A := fun w =>
  let '(r, e) := m (env w) in (r, {| heap := heap w; env := e |}).

Definition alloc (o : obj) : St World loc := fun w =>
  let l := fresh (dom (heap w)) in
  (Ok l, {| heap := <[l := o]> (heap w); env := env w |}).

Definition store (l : loc) (o : obj) : St World unit := fun w =>
  (Ok tt, {| heap := <[l := o]> (heap w); env := env w |}).

Definition load_block (l : loc) : St World EncoderBlock := fun w =>
  match heap w !! l with
  | Some (OBlock b) => (Ok b, w)
  | _ => (Raise (TypeError "not an EncoderBlock"), w)
  end.

Definition load_batch_norm (l : loc) : St World (BatchNorm1d F) := fun w =>
  match heap w !! l with
  | Some (OBatchNorm bn) => (Ok bn, w)
  | _ => (Raise (TypeError "not a BatchNorm1d"), w)
  end.

(** [copy.deepcopy] of a block: a new object with a copy of everything the
    block holds. *)
Definition deepcopy (l : loc) : St World loc :=
  b ← load_block l;
  alloc (OBlock b).

(** [layer(values, mask)] on a reference: the object is looked up when it
    is called. *)
Definition call_layer (l : loc) (values : Tensor F) (mask : Mask)
  : St World (Tensor F) :=
  b ← load_block l;
  in_env (EncoderBlock_forward b values mask).

(** [self._add_norm(values)]: the module's buffers are updated in place. *)
Definition call_batch_norm (l : loc) (values : Tensor F)
  : St World (Tensor F) :=
  bn ← load_batch_norm l;
  let '(r, bn') := BatchNorm1d_forward bn values in
  _ ← store l (OBatchNorm bn');
  lift_result r.

(** *** [CompositeEncoder] *)

(** [_layers] is the [nn.ModuleList]: the references it was given, in
    order. *)
Record CompositeEncoder : Type := {
  _layers : list loc;
  _add_norm : loc;
}.

Definition CompositeEncoder_init (layer : loc) (num_layers : Z)
  : St World CompositeEncoder :=
  copy ← deepcopy layer;
  let layers := list_mul [copy] num_layers in
  proto ← load_block layer;
  bn ← lift_result (BatchNorm1d_new (size proto) None false);
  add_norm ← alloc (OBatchNorm bn);
  mret {| _layers := layers; _add_norm := add_norm |}.

(** The [for] loop of [forward]. *)
Fixpoint forward_layers (layers : list loc) (values : Tensor F) (mask : Mask)
  : St World (Tensor F) :=
  match layers with
  | [] => mret values
  | layer :: layers' =>
      values ← call_layer layer values mask;
      forward_layers layers' values mask
  end.

Definition CompositeEncoder_forward (self : CompositeEncoder)
    (values : Tensor F) (mask : Mask) : St World (Tensor F) :=
  values ← forward_layers (_layers self) values mask;
  call_batch_norm (_add_norm self) values.

(** Every entry of [_layers] refers to a block of the store. *)
Definition layers_ok (self : CompositeEncoder) (w : World) : Prop :=
  Forall (fun l => ∃ b, heap w !! l = Some (OBlock b)) (_layers self).

(** Changing the parameters of the block behind a reference: the object is
    updated in place. *)
Definition set_parameters (l : loc) (b : EncoderBlock) (w : World) : World :=
  {| heap := <[l := OBlock b]> (heap w); env := env w |}.

End Encoder.

Arguments EncoderBlock F {Mask Env _}.
Arguments obj F {Mask Env _}.
Arguments World F {Mask Env _}.

End Encoder.

Import Encoder.

(** ** Test doubles and concrete scalars *)

Module Spy.

Section Spy.
Context {F Mask : Type}.

(** What a spy module records when it is called. *)
Inductive call : Type :=
| CallAddNorm (id : nat) (x : Tensor F)
| CallAttention (query key value : Tensor F) (mask : Mask)
| CallFeedForward (x : Tensor F).

Definition record (c : call) : St (list call) unit :=
  fun log => (Ok tt, log ++ [c]).

(** A spy attention or feed-forward module is the function that computes
    its answer. *)
Definition attention_spy : Type :=
  Tensor F → Tensor F → Tensor F → Mask → Tensor F.

Definition feed_forward_spy : Type := Tensor F → Tensor F.

(** A spy wrapper has a name and the function [an_post x y] standing for
    [normalize(x + dropout(y))]. *)
Record add_norm_spy : Type := {
  an_id : nat;
  an_post : Tensor F → Tensor F → Tensor F;
}.

Definition spy_attention (p : attention_spy) (query key value : Tensor F)
    (mask : Mask) : St (list call) (Tensor F) :=
  _ ← record (CallAttention query key value mask);
  mret (p query key value mask).

Definition spy_feed_forward (p : feed_forward_spy) (x : Tensor F)
  : St (list call) (Tensor F) :=
  _ ← record (CallFeedForward x);
  mret (p x).

(** Modelled from the spec: [AddAndNormWithDropoutLayer.forward], which is
    not among the sources. The spec gives it as: "given an input tensor [x]
    and a sublayer function [f] [...] compute [normalize(x + dropout(f(x)))]".
    The sublayer is called once, on the wrapper's input. *)
Definition spy_add_norm (p : add_norm_spy) (x : Tensor F)
    (sublayer : Tensor F → St (list call) (Tensor F))
  : St (list call) (Tensor F) :=
  _ ← record (CallAddNorm (an_id p) x);
  y ← sublayer x;
  mret (an_post p x y).

#[export] Instance spy_sublayers : SubLayers F Mask (list call) := {|
  MultiHeadedAttention := attention_spy;
  PositionWiseFFNLayer := feed_forward_spy;
  AddAndNormWithDropoutLayer := add_norm_spy;
  attention_forward := spy_attention;
  feed_forward_forward := spy_feed_forward;
  add_norm_forward := spy_add_norm;
|}.

Context `{!Scalar F}.

(** What a spy block returns, and what its sub-modules record, on [values]
    and [mask]. *)
Definition block_mid (b : EncoderBlock F) (values : Tensor F) (mask : Mask)
  : Tensor F :=
  an_post (_add_norm_layer_1 b) values
    (_self_attention b values values values mask).

Definition block_out (b : EncoderBlock F) (values : Tensor F) (mask : Mask)
  : Tensor F :=
  let mid := block_mid b values mask in
  an_post (_add_norm_layer_2 b) mid (_feed_forward b mid).

Definition block_calls (b : EncoderBlock F) (values : Tensor F) (mask : Mask)
  : list call :=
  let mid := block_mid b values mask in
  [ CallAddNorm (an_id (_add_norm_layer_1 b)) values;
    CallAttention values values values mask;
    CallAddNorm (an_id (_add_norm_layer_2 b)) mid;
    CallFeedForward mid ].

(** The same for a sequence of blocks, each fed the output of the one
    before it. *)
Fixpoint stack_out (bs : list (EncoderBlock F)) (values : Tensor F)
    (mask : Mask) : Tensor F :=
  match bs with
  | [] => values
  | b :: bs' => stack_out bs' (block_out b values mask) mask
  end.

Fixpoint stack_calls (bs : list (EncoderBlock F)) (values : Tensor F)
    (mask : Mask) : list call :=
  match bs with
  | [] => []
  | b :: bs' =>
      block_calls b values mask ++ stack_calls bs' (block_out b values mask) mask
  end.

(** The masks of the attention calls of a log, in order. *)
Fixpoint attention_masks (calls : list call) : list Mask :=
  match calls with
  | [] => []
  | CallAttention _ _ _ mask :: calls' => mask :: attention_masks calls'
  | _ :: calls' => attention_masks calls'
  end.

End Spy.

Arguments call F Mask : clear implicits.

End Spy.

(** Rational numbers as scalars, with a square root truncated to three
    decimals. *)
Module QScalar.

Definition Qsqrt (q : Q) : Q :=
  Qmake (Z.sqrt (Qnum q * 1000000 / Zpos (Qden q))) 1000.

#[export] Instance Q_scalar : Scalar Q := {|
  s_const := fun q => q;
  s_add := Qplus;
  s_sub := Qminus;
  s_mul := Qmult;
  s_div := Qdiv;
  s_sqrt := Qsqrt;
|}.

(** Cosine similarity of two rational vectors, and [<] on rationals. *)
Definition dot (x y : list Q) : Q :=
  fold_left Qplus (List.map (fun ab => Qmult (fst ab) (snd ab)) (combine x y)) 0%Q.

Definition Qcos (x y : list Q) : Q :=
  Qred (Qdiv (dot x y) (Qmult (Qsqrt (dot x x)) (Qsqrt (dot y y)))).

Definition Qltb (a b : Q) : bool := negb (Qle_bool b a).

#[export] Instance Q_similarity : Utils.Similarity (list Q) Q := {|
  Utils.cos := Qcos;
  Utils.score_lt := Qltb;
|}.

End QScalar.

(** ** Small concrete models, for examples *)

Module Toy.

Import QScalar.

(** Sub-modules over rational tensors that keep the shape of their input:
    attention and feed-forward scale their input by their one parameter, the
    wrapper adds the sublayer's result to its input. They have no effects. *)
Definition scale (k : Q) (t : Tensor Q) : Tensor Q :=
  {| shape := shape t; data := List.map (fun x => Qred (Qmult k x)) (data t) |}.

Definition add (x y : Tensor Q) : Tensor Q :=
  {| shape := shape x;
     data := List.map (fun ab => Qred (Qplus (fst ab) (snd ab)))
               (combine (data x) (data y)) |}.

Definition toy_sublayers : SubLayers Q unit unit := {|
  MultiHeadedAttention := Q;
  PositionWiseFFNLayer := Q;
  AddAndNormWithDropoutLayer := unit;
  attention_forward := fun k query _ _ _ => mret (scale k query);
  feed_forward_forward := fun k x => mret (scale k x);
  add_norm_forward := fun _ x sublayer => y ← sublayer x; mret (add x y);
|}.

(** A prototype block of size 3 whose modules all have the parameter [k],
    alone in the store. *)
Definition block (k : Q) : @EncoderBlock Q unit unit toy_sublayers :=
  @Build_EncoderBlock Q unit unit toy_sublayers 3 k tt k tt.

Definition world0 : @World Q unit unit toy_sublayers :=
  {| heap := {[ 0%nat := OBlock (block 1) ]}; env := tt |}.

(** The encoder [CompositeEncoder(layer, 2)] and the store it is built in. *)
Definition encoder2 : CompositeEncoder :=
  {| _layers := [1%nat; 1%nat]; _add_norm := 2%nat |}.

Definition norm0 : BatchNorm1d Q :=
  {| num_features := 3;
     eps := 1 # 100000;
     momentum := None;
     weight := None;
     bias := None;
     running_mean := Some [0%Q; 0%Q; 0%Q];
     running_var := Some [1%Q; 1%Q; 1%Q];
     num_batches_tracked := Some 0%nat;
     training := true |}.

Definition world2 : @World Q unit unit toy_sublayers :=
  {| heap := <[2%nat := OBatchNorm norm0]>
               (<[1%nat := OBlock (block 1)]> {[ 0%nat := OBlock (block 1) ]});
     env := tt |}.

(** Inputs of shape [[batch; sequence_length; size]] with [size = 3]: one
    with two positions, one with three. *)
Definition values_1_2_3 : Tensor Q :=
  {| shape := [1; 2; 3]%nat; data := [1; 2; 3; 4; 5; 6]%Q |}.

Definition values_1_3_3 : Tensor Q :=
  {| shape := [1; 3; 3]%nat; data := [1; 2; 3; 4; 5; 6; 7; 8; 9]%Q |}.

(** A spy block, alone in a store with an empty log. Masks are numbers. *)
Definition spy_block
  : @EncoderBlock Q nat (list (Spy.call Q nat)) Spy.spy_sublayers :=
  @Build_EncoderBlock Q nat (list (Spy.call Q nat)) Spy.spy_sublayers 3
    (fun query _ _ _ => scale 2 query)
    {| Spy.an_id := 1; Spy.an_post := add |}
    (scale 3)
    {| Spy.an_id := 2; Spy.an_post := add |}.

Definition spy_world
  : @World Q nat (list (Spy.call Q nat)) Spy.spy_sublayers :=
  {| heap := {[ 1%nat := OBlock spy_block ]}; env := [] |}.

(** A prototype block of size 1, the encoder [CompositeEncoder(layer, 1)]
    built from it and the store it is built in; an input of shape
    [[2; 1; 2]]: two sequences of one position with two features each. *)
Definition block_size1 : @EncoderBlock Q unit unit toy_sublayers :=
  @Build_EncoderBlock Q unit unit toy_sublayers 1 1%Q tt 1%Q tt.

Definition world_size1 : @World Q unit unit toy_sublayers :=
  {| heap := {[ 0%nat := OBlock block_size1 ]}; env := tt |}.

Definition encoder1 : CompositeEncoder :=
  {| _layers := [1%nat]; _add_norm := 2%nat |}.

Definition norm_size1 (training : bool) : BatchNorm1d Q :=
  {| num_features := 1;
     eps := 1 # 100000;
     momentum := None;
     weight := None;
     bias := None;
     running_mean := Some [0%Q];
     running_var := Some [1%Q];
     num_batches_tracked := Some 0%nat;
     training := training |}.

Definition world1 (training : bool) : @World Q unit unit toy_sublayers :=
  {| heap := <[2%nat := OBatchNorm (norm_size1 training)]>
               (<[1%nat := OBlock block_size1]>
                  {[ 0%nat := OBlock block_size1 ]});
     env := tt |}.

Definition values_2_1_2 : Tensor Q :=
  {| shape := [2; 1; 2]%nat; data := [0; 2; 4; 6]%Q |}.

(** The encoder [CompositeEncoder(layer, 0)]: it is built in the same store
    as [encoder2]. *)
Definition encoder0 : CompositeEncoder :=
  {| _layers := []; _add_norm := 2%nat |}.

(** The spy prototype alone in a store, and the store after
    [CompositeEncoder(layer, 2)]. *)
Definition spy_world0
  : @World Q nat (list (Spy.call Q nat)) Spy.spy_sublayers :=
  {| heap := {[ 0%nat := OBlock spy_block ]}; env := [] |}.

Definition spy_world2
  : @World Q nat (list (Spy.call Q nat)) Spy.spy_sublayers :=
  {| heap := <[2%nat := OBatchNorm norm0]>
               (<[1%nat := OBlock spy_block]> {[ 0%nat := OBlock spy_block ]});
     env := [] |}.

(** Sub-modules like those of [toy_sublayers], with an attention that
    refuses a query that is not 3-D. *)
Definition checked_sublayers : SubLayers Q unit unit := {|
  MultiHeadedAttention := Q;
  PositionWiseFFNLayer := Q;
  AddAndNormWithDropoutLayer := unit;
  attention_forward := fun k query _ _ _ =>
    if Nat.eqb (length (shape query)) 3 then mret (scale k query)
    else raise (RuntimeError "expected a 3-D query");
  feed_forward_forward := fun k x => mret (scale k x);
  add_norm_forward := fun _ x sublayer => y ← sublayer x; mret (add x y);
|}.

Definition checked_world : @World Q unit unit checked_sublayers :=
  {| heap := <[2%nat := OBatchNorm norm0]>
               {[ 1%nat := OBlock (@Build_EncoderBlock Q unit unit
                                     checked_sublayers 3 1%Q tt 1%Q tt) ]};
     env := tt |}.

Definition values_2_3 : Tensor Q :=
  {| shape := [2; 3]%nat; data := [1; 2; 3; 4; 5; 6]%Q |}.

(** Two states of the random-number sources of a machine with two CUDA
    devices. *)
Definition rng_fresh : Utils.rng_state :=
  {| Utils.np_random := None;
     Utils.torch_default := None;
     Utils.torch_cuda := [None; None] |}.

Definition rng_used : Utils.rng_state :=
  {| Utils.np_random := Some 7;
     Utils.torch_default := Some 1;
     Utils.torch_cuda := [Some 3; None] |}.

(** The vocabulary and the embeddings of the example of the spec: [cat] and
    [dog] have the same vector, [car] is orthogonal to it. *)
Definition vocabulary : dict Z :=
  [("cat", 0); ("dog", 1); ("car", 2); ("<MASK>", 3); ("<UNK>", 4)].

Definition embedding_table : list (list Q) :=
  [[1; 0]; [1; 0]; [0; 1]; [1; 1]; [2; 1]]%Q.

End Toy.

(** * Facts *)

Import Spy.

(** ** Sorting *)

Section SortedFacts.
Context {A K : Type} (key : A → K) (lt : K → K → bool).

(** [<] on keys is the strict part of a total preorder, as it is on finite
    floating-point numbers. *)
Hypothesis lt_asym : ∀ a b, lt a b = true → lt b a = false.
Hypothesis lt_negtrans : ∀ a b c, lt a b = false → lt b c = false → lt a c = false.

#[local] Abbreviation ascending := (Py.ascending key lt).
#[local] Abbreviation descending := (Py.descending key lt).

Lemma insert_stable_perm x l : insert_stable key lt x l ≡ₚ x :: l.
Proof using Type.
  induction l as [|y l IH]; simpl; [done|].
  destruct (lt (key y) (key x)); [|done].
  rewrite IH. apply perm_swap.
Qed.

Lemma sort_stable_perm l : sort_stable key lt l ≡ₚ l.
Proof using Type.
  induction l as [|x l IH]; simpl; [done|].
  rewrite insert_stable_perm. by rewrite IH.
Qed.

Lemma sorted_reverse_perm l : sorted_reverse key lt l ≡ₚ l.
Proof using Type.
  unfold sorted_reverse.
  rewrite <- Permutation_rev, sort_stable_perm. symmetry. apply Permutation_rev.
Qed.

Lemma insert_stable_sorted x l :
  StronglySorted ascending l → StronglySorted ascending (insert_stable key lt x l).
Proof using lt_asym lt_negtrans.
  induction 1 as [|y l Hl IH Hy]; simpl.
  - repeat constructor.
  - destruct (lt (key y) (key x)) eqn:E.
    + constructor; [done|].
      rewrite insert_stable_perm. constructor; [|done].
      unfold ascending. by apply lt_asym.
    + constructor; [by constructor|].
      constructor; [done|].
      eapply Forall_impl; [exact Hy|].
      intros z Hz. unfold ascending in *. by eapply lt_negtrans.
Qed.

Lemma sort_stable_sorted l : StronglySorted ascending (sort_stable key lt l).
Proof using lt_asym lt_negtrans.
  induction l as [|x l IH]; simpl; [constructor|].
  by apply insert_stable_sorted.
Qed.

Lemma StronglySorted_rev_flip (R : A → A → Prop) l :
  StronglySorted R l → StronglySorted (flip R) (rev l).
Proof using Type.
  induction 1 as [|x l Hl IH Hx]; simpl; [constructor|].
  apply StronglySorted_app_2; [|done|repeat constructor].
  intros x1 x2 H1 H2. apply list_elem_of_singleton in H2 as ->.
  rewrite Forall_forall in Hx. apply Hx, list_elem_of_In, in_rev.
  by apply list_elem_of_In.
Qed.

Lemma sorted_reverse_sorted l :
  StronglySorted descending (sorted_reverse key lt l).
Proof using lt_asym lt_negtrans.
  apply (StronglySorted_rev_flip ascending), sort_stable_sorted.
Qed.

(** Keys that tie with the same key tie with each other, so neither is
    below the other. *)
Lemma tied_not_lt s a b :
  tied lt s a = true → tied lt s b = true → lt a b = false.
Proof using lt_negtrans.
  unfold tied. rewrite !andb_true_iff, !negb_true_iff.
  intros [_ Ha] [Hb _]. by eapply lt_negtrans.
Qed.

Lemma insert_stable_ties s x l :
  List.filter (fun y => tied lt s (key y)) (insert_stable key lt x l)
  = List.filter (fun y => tied lt s (key y)) (x :: l).
Proof using lt_negtrans.
  induction l as [|y l IH]; [done|].
  simpl insert_stable. destruct (lt (key y) (key x)) eqn:E; [|done].
  simpl in *. rewrite IH.
  destruct (tied lt s (key y)) eqn:Ey, (tied lt s (key x)) eqn:Ex; try done.
  by rewrite (tied_not_lt s _ _ Ey Ex) in E.
Qed.

Lemma sort_stable_ties s l :
  List.filter (fun y => tied lt s (key y)) (sort_stable key lt l)
  = List.filter (fun y => tied lt s (key y)) l.
Proof using lt_negtrans.
  induction l as [|x l IH]; [done|].
  simpl sort_stable. rewrite insert_stable_ties. simpl. by rewrite IH.
Qed.

Lemma sorted_reverse_ties s l :
  List.filter (fun y => tied lt s (key y)) (sorted_reverse key lt l)
  = List.filter (fun y => tied lt s (key y)) l.
Proof using lt_negtrans.
  unfold sorted_reverse.
  by rewrite filter_rev, sort_stable_ties, filter_rev, rev_involutive.
Qed.

Lemma tied_refl a : tied lt a a = true.
Proof using lt_asym.
  unfold tied. destruct (lt a a) eqn:E; [|done].
  by rewrite (lt_asym _ _ E) in E.
Qed.

Lemma filter_ties_In s x l :
  In x (List.filter (fun y => tied lt s (key y)) l) → In x l.
Proof using Type. intros H. by apply filter_In in H as [? _]. Qed.

(** A list has one stable descending arrangement only. *)
Lemma stable_descending_unique l1 l2 :
  StronglySorted descending l1 →
  StronglySorted descending l2 →
  (∀ s, List.filter (fun y => tied lt s (key y)) l1
        = List.filter (fun y => tied lt s (key y)) l2) →
  l1 = l2.
Proof using lt_asym.
  intros H1. revert l2.
  induction H1 as [|a l1 Hl1 IH Ha]; intros l2 H2 Hties.
  - destruct l2 as [|b l2]; [done|].
    specialize (Hties (key b)). simpl in Hties.
    by rewrite tied_refl in Hties.
  - destruct H2 as [|b l2 Hl2 Hb].
    { specialize (Hties (key a)). simpl in Hties.
      by rewrite tied_refl in Hties. }
    assert (tied lt (key a) (key b) = true) as Hab.
    { destruct (tied lt (key a) (key b)) eqn:E; [done|].
      pose proof (Hties (key a)) as Hta. pose proof (Hties (key b)) as Htb.
      simpl in Hta, Htb. rewrite tied_refl in Hta, Htb. rewrite E in Hta.
      assert (tied lt (key b) (key a) = false) as E'.
      { unfold tied in *. by rewrite andb_comm. }
      rewrite E' in Htb.
      assert (In a l2) as Hin_a.
      { eapply filter_ties_In. rewrite <- Hta. by left. }
      assert (In b l1) as Hin_b.
      { eapply filter_ties_In. rewrite Htb. by left. }
      rewrite Forall_forall in Ha, Hb.
      apply list_elem_of_In, Hb in Hin_a. apply list_elem_of_In, Ha in Hin_b.
      unfold Py.descending in *. unfold tied in E.
      by rewrite Hin_a, Hin_b in E. }
    assert (a = b) as <-.
    { specialize (Hties (key a)). simpl in Hties.
      rewrite tied_refl, Hab in Hties. congruence. }
    f_equal. apply IH; [done|]. intros s.
    specialize (Hties s). simpl in Hties.
    destruct (tied lt s (key a)); congruence.
Qed.

End SortedFacts.

(** ** [get_cosine_similar] *)

Section GetCosineSimilarFacts.
Import Utils.
Context {Vec Score : Type} `{!Similarity Vec Score}.

Lemma str_in_false w a b c :
  str_in w [a; b; c] = false ↔ w ≠ a ∧ w ≠ b ∧ w ≠ c.
Proof.
  unfold str_in. simpl. rewrite !orb_false_iff, !String.eqb_neq. tauto.
Qed.

Lemma kept_true t w :
  kept t w = true ↔ w ≠ "<MASK>" ∧ w ≠ "<UNK>" ∧ w ≠ t.
Proof.
  unfold kept. rewrite negb_true_iff, str_in_false. tauto.
Qed.

Lemma dict_getitem_Ok {V} (d : dict V) k v :
  dict_getitem d k = Ok v → In (k, v) d.
Proof.
  unfold dict_getitem. destruct (List.find _ d) as [[k' v']|] eqn:E; [|done].
  intros [= <-]. apply find_some in E as [Hin Heq].
  simpl in Heq. apply String.eqb_eq in Heq as ->. done.
Qed.

Lemma dict_getitem_key {V} (d : dict V) k v :
  In (k, v) d → ∃ v', dict_getitem d k = Ok v'.
Proof.
  intros Hin. unfold dict_getitem.
  destruct (List.find _ d) as [[k' v']|] eqn:E; [by eexists|].
  eapply find_none in E; [|exact Hin]. simpl in E.
  by rewrite String.eqb_refl in E.
Qed.

Lemma dict_getitem_missing {V} (d : dict V) k :
  (∀ v, ¬ In (k, v) d) → dict_getitem d k = Raise (KeyError k).
Proof.
  intros Hk. unfold dict_getitem.
  destruct (List.find _ d) as [[k' v']|] eqn:E; [|done].
  apply find_some in E as [Hin Heq]. simpl in Heq.
  apply String.eqb_eq in Heq as ->. by destruct (Hk v').
Qed.

Lemma distances_loop_Ok t emb we items acc :
  indexes_rows items emb →
  ∃ ds, distances_loop t emb we items acc = Ok (acc ++ ds) ∧
        Forall2 (scored emb we) (List.filter (fun kv => kept t kv.1) items) ds.
Proof.
  revert acc. induction items as [|[w i] items IH]; intros acc Hrows.
  { exists []. by rewrite app_nil_r. }
  assert (indexes_rows items emb) as Hrows'.
  { intros w' i' Hin. apply (Hrows w' i'). by right. }
  destruct (Hrows w i) as [r Hr]; [by left|].
  cbn [distances_loop List.filter]. unfold distances_step, kept. cbn [fst snd].
  destruct (str_in w _) eqn:Ew; cbn.
  - by apply IH.
  - rewrite Hr. cbn.
    destruct (IH (acc ++ [(w, cos we r)]) Hrows') as (ds & Hds & Hall).
    exists ((w, cos we r) :: ds). rewrite Hds, <- app_assoc.
    split; [done|]. constructor; [|done]. split; [done|]. by exists r.
Qed.

Lemma scored_In emb we items ds :
  Forall2 (scored emb we) items ds →
  ∀ p, In p ds ↔ ∃ item, In item items ∧ scored emb we item p.
Proof.
  induction 1 as [|item p0 items ds Hp _ IH]; intros p; simpl.
  - split; [done|]. by intros (? & [] & _).
  - rewrite IH. split.
    + intros [<-|(item' & Hin & Hs)]; [exists item|exists item']; auto.
    + intros (item' & [<-|Hin] & Hs); [left|right; by exists item'].
      destruct Hp as [Hw (r & Hr & Hsc)], Hs as [Hw' (r' & Hr' & Hsc')].
      rewrite Hr in Hr'. injection Hr' as <-.
      destruct p0, p. simpl in *. congruence.
Qed.

Lemma scored_tokens emb we items ds :
  Forall2 (scored emb we) items ds → List.map fst ds = List.map fst items.
Proof.
  induction 1 as [|item p items ds [Hw _] _ IH]; simpl; [done|].
  by rewrite Hw, IH.
Qed.

Lemma filter_map_fst {B} (f : string → bool) (l : list (string * B)) :
  List.map fst (List.filter (fun kv => f kv.1) l)
  = List.filter f (List.map fst l).
Proof.
  induction l as [|[w i] l IH]; simpl; [done|].
  destruct (f w); simpl; by rewrite IH.
Qed.

(** The function returns the sorted scores of the kept items whenever the
    lower-cased target is a key and the indices address rows. *)
Lemma get_cosine_similar_Ok t d emb i0 :
  indexes_rows d emb →
  dict_getitem d (lower t) = Ok i0 →
  ∃ we ds,
    tensor_getitem emb i0 = Ok we ∧
    Forall2 (scored emb we) (List.filter (fun kv => kept t kv.1) d) ds ∧
    get_cosine_similar t d emb = Ok (sorted_reverse snd score_lt ds).
Proof.
  intros Hrows Hkey.
  destruct (Hrows (lower t) i0) as [we Hwe]; [by apply dict_getitem_Ok|].
  destruct (distances_loop_Ok t emb we d [] Hrows) as (ds & Hds & Hall).
  exists we, ds. split; [done|]. split; [done|].
  unfold get_cosine_similar. rewrite Hkey. cbn. rewrite Hwe. cbn.
  by rewrite Hds.
Qed.

Lemma ascii_lower_not_upper c :
  ascii_lower c ≠ "M"%char ∧ ascii_lower c ≠ "U"%char.
Proof.
  destruct c as [[] [] [] [] [] [] [] []]; vm_compute; split; discriminate.
Qed.

Lemma lower_not_reserved t : lower t ≠ "<MASK>" ∧ lower t ≠ "<UNK>".
Proof.
  destruct t as [|c1 [|c2 t]]; simpl; [done..|].
  destruct (ascii_lower_not_upper c2) as [HM HU].
  split; intros [= _ H]; congruence.
Qed.

End GetCosineSimilarFacts.

Section GetCosineSimilarClaims.
Import Utils.
Context {Vec Score : Type} `{!Similarity Vec Score}.

(** C4. When the lower-cased target is a key of the vocabulary and the
    indices address rows, [get_cosine_similar] returns a list that holds
    exactly the pairs [(w, cos(target row, row of w))] for the tokens [w] of
    the vocabulary other than ["<MASK>"], ["<UNK>"] and [target_word]; each
    of these tokens occurs in it as often as in the vocabulary. *)
Theorem get_cosine_similar_scores (t : string) (d : dict Z) (emb : list Vec) (i0 : Z) :
  indexes_rows d emb →
  dict_getitem d (lower t) = Ok i0 →
  ∃ we res,
    tensor_getitem emb i0 = Ok we ∧
    get_cosine_similar t d emb = Ok res ∧
    (∀ w s, In (w, s) res ↔
            w ≠ "<MASK>" ∧ w ≠ "<UNK>" ∧ w ≠ t ∧
            ∃ i r, In (w, i) d ∧ tensor_getitem emb i = Ok r ∧ s = cos we r) ∧
    List.map fst res ≡ₚ List.filter (kept t) (List.map fst d).
Proof.
  intros Hrows Hkey.
  destruct (get_cosine_similar_Ok t d emb i0 Hrows Hkey)
    as (we & ds & Hwe & Hall & Hres).
  exists we, (sorted_reverse snd score_lt ds).
  split; [done|]. split; [done|]. split.
  - intros w s. split.
    + intros Hin.
      apply (Permutation_in _ (sorted_reverse_perm snd score_lt ds)) in Hin.
      apply (scored_In _ _ _ _ Hall) in Hin as ([w' i] & Hitem & Hw & r & Hr & Hs).
      simpl in *. subst w'.
      apply filter_In in Hitem as [Hd Hk]. simpl in Hk.
      apply kept_true in Hk as (? & ? & ?). eauto 10.
    + intros (HM & HU & Ht & i & r & Hd & Hr & ->).
      apply (Permutation_in _ (Permutation_sym (sorted_reverse_perm snd score_lt ds))).
      apply (scored_In _ _ _ _ Hall). exists (w, i). split.
      * apply filter_In. split; [done|]. by apply kept_true.
      * split; [done|]. by exists r.
  - rewrite (sorted_reverse_perm snd score_lt ds).
    by rewrite (scored_tokens _ _ _ _ Hall), filter_map_fst.
Qed.

(** C5. With [<] on scores the strict part of a total preorder, the
    returned list is in descending order of score, and the pairs whose
    scores tie come in the order in which the vocabulary is iterated; it is
    the only arrangement of the computed pairs with these two properties. *)
Theorem get_cosine_similar_sorted_stable (t : string) (d : dict Z) (emb : list Vec) (i0 : Z) :
  (∀ a b, score_lt a b = true → score_lt b a = false) →
  (∀ a b c, score_lt a b = false → score_lt b c = false → score_lt a c = false) →
  indexes_rows d emb →
  dict_getitem d (lower t) = Ok i0 →
  ∃ ds res,
    get_cosine_similar t d emb = Ok res ∧
    List.map fst ds = List.filter (kept t) (List.map fst d) ∧
    res ≡ₚ ds ∧
    StronglySorted (descending snd score_lt) res ∧
    (∀ s, List.filter (fun p => tied score_lt s p.2) res
          = List.filter (fun p => tied score_lt s p.2) ds) ∧
    (∀ res',
       StronglySorted (descending snd score_lt) res' →
       (∀ s, List.filter (fun p => tied score_lt s p.2) res'
             = List.filter (fun p => tied score_lt s p.2) ds) →
       res' = res).
Proof.
  intros Hasym Hneg Hrows Hkey.
  destruct (get_cosine_similar_Ok t d emb i0 Hrows Hkey)
    as (we & ds & Hwe & Hall & Hres).
  exists ds, (sorted_reverse snd score_lt ds).
  split; [done|]. split.
  { by rewrite (scored_tokens _ _ _ _ Hall), filter_map_fst. }
  split; [apply sorted_reverse_perm|].
  split; [by apply sorted_reverse_sorted|].
  split; [intros s; by apply sorted_reverse_ties|].
  intros res' Hsorted Hties.
  apply (stable_descending_unique snd score_lt Hasym); [done| |].
  - by apply sorted_reverse_sorted.
  - intros s. rewrite Hties. symmetry. by apply sorted_reverse_ties.
Qed.

(** C6. When the lower-cased target is not a key of the vocabulary,
    [get_cosine_similar] raises [KeyError] with the lower-cased target as
    the missing key; no list is returned. *)
Theorem get_cosine_similar_KeyError (t : string) (d : dict Z) (emb : list Vec) :
  (∀ i, ¬ In (lower t, i) d) →
  get_cosine_similar t d emb = Raise (KeyError (lower t)).
Proof.
  intros Hmiss. unfold get_cosine_similar.
  by rewrite (dict_getitem_missing d (lower t) Hmiss).
Qed.

(** C10. When [target_word] is not in lower case and its lower-cased form
    is a key of the vocabulary, [get_cosine_similar] returns a list that
    contains the lower-cased token, paired with the similarity of the
    target's row with itself. *)
Theorem get_cosine_similar_mixed_case (t : string) (d : dict Z) (emb : list Vec) (i0 : Z) :
  t ≠ lower t →
  indexes_rows d emb →
  dict_getitem d (lower t) = Ok i0 →
  ∃ we res,
    tensor_getitem emb i0 = Ok we ∧
    get_cosine_similar t d emb = Ok res ∧
    In (lower t, cos we we) res.
Proof.
  intros Hcase Hrows Hkey.
  destruct (get_cosine_similar_Ok t d emb i0 Hrows Hkey)
    as (we & ds & Hwe & Hall & Hres).
  exists we, (sorted_reverse snd score_lt ds).
  split; [done|]. split; [done|].
  apply (Permutation_in _ (Permutation_sym (sorted_reverse_perm snd score_lt ds))).
  apply (scored_In _ _ _ _ Hall). exists (lower t, i0). split.
  - apply filter_In. split; [by apply dict_getitem_Ok|].
    apply kept_true. destruct (lower_not_reserved t). auto.
  - split; [done|]. by exists we.
Qed.

End GetCosineSimilarClaims.

(** C7. Whatever the generators held before, after [set_seed_everywhere]
    NumPy's generator, torch's default generator and the generator of every
    CUDA device have all been seeded with the same value, 42. *)
Theorem set_seed_everywhere_seeds_all (s : Utils.rng_state) :
  let s' := Utils.set_seed_everywhere s in
  Utils.np_random s' = Some 42 ∧
  Utils.torch_default s' = Some 42 ∧
  length (Utils.torch_cuda s') = length (Utils.torch_cuda s) ∧
  Forall (eq (Some 42)) (Utils.torch_cuda s').
Proof.
  destruct s as [np td cuda]. simpl. split; [done|]. split; [done|].
  rewrite !length_map. split; [done|].
  rewrite List.map_map. apply Forall_forall. intros x Hx.
  apply list_elem_of_In, in_map_iff in Hx as (? & <- & _). done.
Qed.

(** ** The state monad *)

Lemma St_bind_Ok {S A B} (m : St S A) (f : A → St S B) s a s' :
  m s = (Ok a, s') → (m ≫= f) s = f a s'.
Proof. intros H. unfold mbind, St_bind. by rewrite H. Qed.

Lemma St_bind_Raise {S A B} (m : St S A) (f : A → St S B) s e s' :
  m s = (Raise e, s') → (m ≫= f) s = (Raise e, s').
Proof. intros H. unfold mbind, St_bind. by rewrite H. Qed.

Lemma St_bind_inv_Ok {S A B} (m : St S A) (f : A → St S B) s b s' :
  (m ≫= f) s = (Ok b, s') → ∃ a s1, m s = (Ok a, s1) ∧ f a s1 = (Ok b, s').
Proof.
  unfold mbind, St_bind. destruct (m s) as [[a|e] s1]; [eauto|done].
Qed.

(** ** [torch.nn.BatchNorm1d] *)

Section BatchNormFacts.
Context {F : Type} `{!Scalar F}.

Lemma list_mul_singleton {A} (x : A) n :
  list_mul [x] n = replicate (Z.to_nat n) x.
Proof.
  unfold list_mul. induction (Z.to_nat n) as [|k IH]; simpl; [done|].
  by rewrite IH.
Qed.

Lemma BatchNorm1d_new_Ok n (m : option F) affine :
  0 ≤ n →
  ∃ bn, BatchNorm1d_new n m affine = Ok bn ∧
        norm_ok (Z.to_nat n) bn ∧ training bn = true ∧
        (affine = false → weight bn = None ∧ bias bn = None).
Proof.
  intros Hn. unfold BatchNorm1d_new.
  destruct (n <? 0) eqn:E; [lia|].
  eexists. split; [done|]. unfold norm_ok. simpl.
  rewrite !length_replicate, Nat.eqb_refl.
  repeat split; try done; destruct affine; simpl;
    rewrite ?length_replicate, ?Nat.eqb_refl; done.
Qed.

Lemma BatchNorm1d_new_inv n (m : option F) affine bn :
  BatchNorm1d_new n m affine = Ok bn → 0 ≤ n.
Proof. unfold BatchNorm1d_new. destruct (n <? 0) eqn:E; [done|lia]. Qed.

(** A module whose buffers fit the channels of the input returns a tensor
    of the input's shape. *)
Lemma BatchNorm1d_forward_shape (bn : BatchNorm1d F) (input : Tensor F) N C L :
  bn_dims (shape input) = Ok (N, C, L) →
  norm_ok C bn →
  (uses_batch_stats bn = true → (N * L)%nat ≠ 1%nat) →
  ∃ out bn', BatchNorm1d_forward bn input = (Ok out, bn') ∧
             shape out = shape input.
Proof.
  intros Hdims (Hm & Hv & Hw & Hb) Hbatch.
  unfold BatchNorm1d_forward. rewrite Hdims.
  unfold batch_norm. rewrite Hm, Hv, Hw, Hb. simpl.
  destruct (uses_batch_stats bn) eqn:Eu; simpl.
  - destruct (Nat.eqb_spec (N * L) 1) as [E|E]; [by destruct Hbatch|].
    eauto.
  - eauto.
Qed.

(** Buffers that do not fit the channels of the input are refused. *)
Lemma BatchNorm1d_forward_mismatch (bn : BatchNorm1d F) (input : Tensor F) N C L r bn' :
  bn_dims (shape input) = Ok (N, C, L) →
  has_size C (running_mean bn) = false →
  BatchNorm1d_forward bn input = (r, bn') →
  ∃ e, r = Raise e.
Proof.
  intros Hdims Hm. unfold BatchNorm1d_forward. rewrite Hdims.
  unfold batch_norm. rewrite Hm. simpl.
  destruct (_ && _); intros [= <- _]; eauto.
Qed.

Lemma nth_map_seq {B} (g : nat → B) (C c : nat) (d : B) :
  (c < C)%nat → nth c (List.map g (seq 0 C)) d = g c.
Proof.
  intros Hc. rewrite (nth_indep _ d (g 0%nat)) by (by rewrite length_map, length_seq).
  rewrite map_nth. by rewrite seq_nth.
Qed.

(** The output of a module without affine parameters, element by element:
    on a well-formed 3-D input every element has the mean of its channel
    subtracted and is divided by the square root of the variance of its
    channel plus [eps]. The channel of an element is its index on the second
    axis. In training mode mean and variance are those of all the elements
    of the channel in the input; in evaluation mode they are the running
    estimates of the channel. *)
Lemma BatchNorm1d_forward_elements (bn bn' : BatchNorm1d F) (input out : Tensor F)
    (rm rv : list F) (N C L : nat) :
  weight bn = None → bias bn = None →
  running_mean bn = Some rm → running_var bn = Some rv →
  BatchNorm1d_forward bn input = (Ok out, bn') →
  shape input = [N; C; L] →
  length (data input) = (N * C * L)%nat →
  shape out = shape input ∧
  length (data out) = length (data input) ∧
  ∀ (i : nat) (x : F),
    data input !! i = Some x →
    let c := ((i / L) mod C)%nat in
    if training bn then
      let members :=
        List.map snd
          (List.filter (fun jx => Nat.eqb ((jx.1 / L) mod C) c)
             (combine (seq 0 (length (data input))) (data input))) in
      let count := s_const (inject_Z (Z.of_nat (length members))) in
      let m := s_div (fold_left s_add members (s_const 0)) count in
      let var :=
        s_div (fold_left s_add
                 (List.map (fun y => s_mul (s_sub y m) (s_sub y m)) members)
                 (s_const 0)) count in
      data out !! i = Some (s_div (s_sub x m) (s_sqrt (s_add var (eps bn))))
    else
      ∃ m var,
        rm !! c = Some m ∧ rv !! c = Some var ∧
        data out !! i = Some (s_div (s_sub x m) (s_sqrt (s_add var (eps bn)))).
Proof.
  intros Hw Hb Hrm Hrv Hfwd Hshape Hlen.
  unfold BatchNorm1d_forward in Hfwd. rewrite Hshape in Hfwd. cbn [bn_dims] in Hfwd.
  unfold batch_norm in Hfwd. rewrite Hw, Hb, Hrm, Hrv in Hfwd.
  assert (uses_batch_stats bn = training bn) as Hu.
  { unfold uses_batch_stats. rewrite Hrm.
    rewrite bool_decide_eq_false_2; [by rewrite orb_false_r|]. by intros [? _]. }
  rewrite Hu in Hfwd.
  destruct (training bn && (N * L =? 1)%nat); [by destruct (training bn)|].
  cbn [has_size] in Hfwd.
  destruct ((length rm =? C)%nat) eqn:Erm; [|by destruct (training bn)].
  destruct ((length rv =? C)%nat) eqn:Erv; [|by destruct (training bn)].
  apply Nat.eqb_eq in Erm, Erv. cbn [andb negb] in Hfwd.
  assert (∀ i, (i < length (data input))%nat → ((i / L) mod C < C)%nat) as Hc.
  { intros i Hi. apply Nat.mod_upper_bound. intros ->. lia. }
  destruct (training bn) eqn:Et; cbn [statistics] in Hfwd;
    injection Hfwd as <- _; cbn [shape data]; unfold batch_norm_data;
    (split; [done|]); (split; [by rewrite length_imap|]);
    intros i x Hx; pose proof (Hc i (lookup_lt_Some _ _ _ Hx)) as Hci;
    rewrite list_lookup_imap, Hx; cbn [fmap option_fmap option_map];
    unfold affine_elem, standardize, channel_of.
  - rewrite !List.map_map, !nth_map_seq by done.
    unfold var_biased, mean, s_sum, sq_dev, channel_values, channel_of, s_of_nat.
    cbv zeta. rewrite ?List.map_map, ?length_map. reflexivity.
  - cbn [default].
    destruct (lookup_lt_is_Some_2 rm ((i / L) mod C)) as [m Hm]; [lia|].
    destruct (lookup_lt_is_Some_2 rv ((i / L) mod C)) as [var Hvar]; [lia|].
    exists m, var. split; [done|]. split; [done|].
    by rewrite (nth_lookup_Some _ _ _ _ Hm), (nth_lookup_Some _ _ _ _ Hvar).
Qed.

(** A call of the module leaves its parameters and its mode as they are,
    and a module with buffers keeps them. *)
Lemma BatchNorm1d_forward_config (bn : BatchNorm1d F) (input : Tensor F) :
  let bn' := (BatchNorm1d_forward bn input).2 in
  weight bn' = weight bn ∧ bias bn' = bias bn ∧ training bn' = training bn ∧
  (is_Some (running_mean bn) → is_Some (running_mean bn')) ∧
  (is_Some (running_var bn) → is_Some (running_var bn')).
Proof.
  unfold BatchNorm1d_forward.
  destruct (bn_dims (shape input)) as [[[N C] L]|e]; [|done].
  destruct (batch_norm _ _ _ _ _ _ _ _ _ _ _) as [[[ys rm'] rv']|e] eqn:E;
    [|done].
  cbn [snd weight bias training running_mean running_var].
  split; [done|]. split; [done|]. split; [done|].
  unfold batch_norm in E.
  repeat (match type of E with
          | context [if ?c then _ else _] => destruct c
          end; try discriminate E).
  all: destruct (statistics _ _ _ _ _ _) as [means vars];
    injection E as _ <- <-; split; intros [x ->]; by eexists.
Qed.

End BatchNormFacts.

(** ** The encoder, for any sub-modules *)

Section EncoderFacts.
Context {F Mask Env : Type} `{!Scalar F} `{!SubLayers F Mask Env}.

Implicit Types (w : World F) (b : EncoderBlock F) (self : CompositeEncoder).

Lemma load_block_Ok l b w :
  heap w !! l = Some (OBlock b) → load_block l w = (Ok b, w).
Proof. intros H. unfold load_block. by rewrite H. Qed.

Lemma load_block_inv l b w w' :
  load_block l w = (Ok b, w') → heap w !! l = Some (OBlock b) ∧ w' = w.
Proof.
  unfold load_block. destruct (heap w !! l) as [[b'|bn]|]; [|done..].
  by intros [= -> ->].
Qed.

Lemma load_batch_norm_Ok l bn w :
  heap w !! l = Some (OBatchNorm bn) → load_batch_norm l w = (Ok bn, w).
Proof. intros H. unfold load_batch_norm. by rewrite H. Qed.

(** A block is run on the environment; the store is left as it is. *)
Lemma call_layer_Ok l b values mask w :
  heap w !! l = Some (OBlock b) →
  call_layer l values mask w
  = let '(r, e) := EncoderBlock_forward b values mask (env w) in
    (r, {| heap := heap w; env := e |}).
Proof.
  intros H. unfold call_layer.
  by rewrite (St_bind_Ok _ _ _ _ _ (load_block_Ok _ _ _ H)).
Qed.

Lemma call_layer_heap l values mask w r w' :
  call_layer l values mask w = (r, w') → heap w' = heap w.
Proof.
  unfold call_layer, mbind, St_bind, load_block.
  destruct (heap w !! l) as [[b|bn]|]; try by intros [= _ <-].
  unfold in_env. destruct (EncoderBlock_forward _ _ _ _) as [r' e].
  by intros [= _ <-].
Qed.

Lemma forward_layers_heap layers values mask w r w' :
  forward_layers layers values mask w = (r, w') → heap w' = heap w.
Proof.
  revert values w. induction layers as [|l layers IH]; intros values w; simpl.
  - by intros [= _ <-].
  - unfold mbind, St_bind.
    destruct (call_layer l values mask w) as [[v|e] w1] eqn:E.
    + intros Hrest. apply IH in Hrest. rewrite Hrest.
      by eapply call_layer_heap.
    + intros [= _ <-]. by eapply call_layer_heap.
Qed.

Lemma forward_layers_app layers1 layers2 values mask w :
  forward_layers (layers1 ++ layers2) values mask w
  = match forward_layers layers1 values mask w with
    | (Ok v, w1) => forward_layers layers2 v mask w1
    | (Raise e, w1) => (Raise e, w1)
    end.
Proof.
  revert values w. induction layers1 as [|l layers1 IH]; intros values w.
  - done.
  - simpl. unfold mbind, St_bind.
    destruct (call_layer l values mask w) as [[v|e] w1]; [apply IH|done].
Qed.

(** The final normalization: the module behind [_add_norm] is run once and
    its new state is stored back. *)
Lemma call_batch_norm_Ok l bn values w :
  heap w !! l = Some (OBatchNorm bn) →
  call_batch_norm l values w
  = ((BatchNorm1d_forward bn values).1,
     {| heap := <[l := OBatchNorm (BatchNorm1d_forward bn values).2]> (heap w);
        env := env w |}).
Proof.
  intros H. unfold call_batch_norm.
  rewrite (St_bind_Ok _ _ _ _ _ (load_batch_norm_Ok _ _ _ H)).
  by destruct (BatchNorm1d_forward bn values) as [r bn'].
Qed.

Lemma CompositeEncoder_forward_unfold self values mask w :
  CompositeEncoder_forward self values mask w
  = match forward_layers (_layers self) values mask w with
    | (Ok v, w1) => call_batch_norm (_add_norm self) v w1
    | (Raise e, w1) => (Raise e, w1)
    end.
Proof. done. Qed.

(** *** Construction *)

(** What [__init__] leaves behind: one copy of the prototype, repeated
    [num_layers] times in [_layers], and a fresh normalization module
    without affine parameters. *)
Lemma CompositeEncoder_init_inv layer n w0 self w :
  CompositeEncoder_init layer n w0 = (Ok self, w) →
  ∃ proto copy bn,
    heap w0 !! layer = Some (OBlock proto) ∧
    _layers self = replicate (Z.to_nat n) copy ∧
    copy ≠ layer ∧ copy ≠ _add_norm self ∧
    heap w0 !! copy = None ∧
    heap w !! copy = Some (OBlock proto) ∧
    heap w !! layer = Some (OBlock proto) ∧
    heap w !! _add_norm self = Some (OBatchNorm bn) ∧
    BatchNorm1d_new (size proto) None false = Ok bn ∧
    env w = env w0.
Proof.
  unfold CompositeEncoder_init, deepcopy. intros Hinit.
  apply St_bind_inv_Ok in Hinit as (copy & w1 & Hcopy & Hinit).
  apply St_bind_inv_Ok in Hcopy as (proto & w0' & Hload & Halloc).
  apply load_block_inv in Hload as [Hproto ->].
  unfold alloc in Halloc. injection Halloc as <- <-.
  set (copy := fresh (dom (heap w0))) in *.
  assert (heap w0 !! copy = None) as Hfresh.
  { apply not_elem_of_dom, is_fresh. }
  assert (copy ≠ layer) as Hne by congruence.
  apply St_bind_inv_Ok in Hinit as (proto' & w1 & Hload & Hinit).
  apply load_block_inv in Hload as [Hproto' ->]. simpl in Hproto'.
  rewrite lookup_insert_ne in Hproto' by done.
  rewrite Hproto in Hproto'. injection Hproto' as <-.
  apply St_bind_inv_Ok in Hinit as (bn & w1 & Hnew & Hinit).
  unfold lift_result in Hnew. injection Hnew as Hnew <-.
  apply St_bind_inv_Ok in Hinit as (l & w1 & Halloc & Hinit).
  unfold alloc in Halloc. simpl in Halloc. injection Halloc as <- <-.
  injection Hinit as <- <-. simpl.
  set (l := fresh _).
  assert (<[copy := OBlock proto]> (heap w0) !! l = None) as Hl.
  { apply not_elem_of_dom, is_fresh. }
  assert (copy ≠ l) as Hne'.
  { intros E. rewrite <- E, lookup_insert_eq in Hl. done. }
  assert (l ≠ layer) as Hne''.
  { intros E. rewrite E, lookup_insert_ne in Hl by done. congruence. }
  exists proto, copy, bn.
  rewrite list_mul_singleton.
  rewrite lookup_insert_eq, !lookup_insert_ne, lookup_insert_eq by done.
  rewrite !lookup_insert_ne by done. done.
Qed.

Lemma CompositeEncoder_init_Ok layer n w0 proto :
  heap w0 !! layer = Some (OBlock proto) →
  0 ≤ size proto →
  ∃ self w, CompositeEncoder_init layer n w0 = (Ok self, w).
Proof.
  intros Hproto Hsize.
  destruct (BatchNorm1d_new_Ok (size proto) (None : option F) false Hsize)
    as (bn & Hbn & _).
  assert (fresh (dom (heap w0)) ≠ layer) as Hne.
  { intros E. pose proof (is_fresh (dom (heap w0))) as Hf.
    rewrite E in Hf. apply Hf, elem_of_dom. eauto. }
  unfold CompositeEncoder_init, deepcopy, mbind, St_bind, load_block, alloc,
    lift_result, mret, St_ret.
  rewrite Hproto. simpl. rewrite lookup_insert_ne by done.
  rewrite Hproto, Hbn. eauto.
Qed.

(** The encoder as [__init__] builds it: its layers are blocks, the buffers
    of its normalization have as many entries as the prototype's [size], and
    it is in training mode. *)
Lemma CompositeEncoder_init_ok layer n w0 self w :
  CompositeEncoder_init layer n w0 = (Ok self, w) →
  ∃ proto bn,
    heap w0 !! layer = Some (OBlock proto) ∧
    0 ≤ size proto ∧
    layers_ok self w ∧
    heap w !! _add_norm self = Some (OBatchNorm bn) ∧
    norm_ok (Z.to_nat (size proto)) bn ∧
    uses_batch_stats bn = true.
Proof.
  intros Hinit.
  apply CompositeEncoder_init_inv in Hinit
    as (proto & copy & bn & Hproto & Hlayers & _ & _ & _ & Hcopy & _ & Hbn & Hnew & _).
  pose proof (BatchNorm1d_new_inv _ _ _ _ Hnew) as Hsize.
  destruct (BatchNorm1d_new_Ok (size proto) (None : option F) false Hsize)
    as (bn' & Hnew' & Hok & Htr & _).
  rewrite Hnew in Hnew'. injection Hnew' as <-.
  exists proto, bn. repeat split; try done.
  - unfold layers_ok. rewrite Hlayers. apply Forall_replicate. eauto.
  - apply Hok.
  - apply Hok.
  - apply Hok.
  - apply Hok.
  - unfold uses_batch_stats. by rewrite Htr.
Qed.

End EncoderFacts.

Section EncoderClaims.
Context {F Mask Env : Type} `{!Scalar F} `{!SubLayers F Mask Env}.

Implicit Types (w : World F) (b : EncoderBlock F) (self : CompositeEncoder).

(** C1 (what the code does instead). Every entry of [_layers] is the same
    reference, to the one copy [__init__] makes of the prototype: after the
    parameters of the block at position [i] are changed, the block at any
    position [j] holds the changed parameters and computes with them. *)
Theorem CompositeEncoder_layers_aliased layer n w0 self w (i j : nat) (li lj : loc) b' :
  CompositeEncoder_init layer n w0 = (Ok self, w) →
  _layers self !! i = Some li →
  _layers self !! j = Some lj →
  li = lj ∧
  load_block lj (set_parameters li b' w) = (Ok b', set_parameters li b' w) ∧
  ∀ values mask,
    call_layer lj values mask (set_parameters li b' w)
    = let '(r, e) := EncoderBlock_forward b' values mask (env w) in
      (r, {| heap := <[li := OBlock b']> (heap w); env := e |}).
Proof.
  intros Hinit Hi Hj.
  apply CompositeEncoder_init_inv in Hinit
    as (proto & copy & bn & _ & Hlayers & _).
  rewrite Hlayers in Hi, Hj.
  apply lookup_replicate in Hi as [-> _], Hj as [-> _].
  assert (heap (set_parameters copy b' w) !! copy = Some (OBlock b')) as Hb.
  { simpl. apply lookup_insert_eq. }
  split; [done|]. split; [by apply load_block_Ok|].
  intros values mask. by rewrite (call_layer_Ok _ _ _ _ _ Hb).
Qed.

(** C3 (amended). The encoder is built with one normalization module, which
    has no affine parameters, is in training mode and has buffers. As long
    as it has no affine parameters, [forward] hands the output of the last
    block to this module, once, and returns what the module returns. When
    that is a tensor and the block output is a well-formed tensor of shape
    [[N; C; L]], every element [x] of it has become
    [(x - m) / sqrt(var + eps)], where, in training mode, [m] and [var] are
    the mean and the variance (with divisor [n]) of all the elements that
    have the same index as [x] on the second axis, over the first and the
    last axis; in evaluation mode they are the running estimates for that
    index. *)
Theorem CompositeEncoder_forward_batch_norm layer n w0 self w :
  CompositeEncoder_init layer n w0 = (Ok self, w) →
  ∃ bn0,
    heap w !! _add_norm self = Some (OBatchNorm bn0) ∧
    weight bn0 = None ∧ bias bn0 = None ∧ training bn0 = true ∧
    is_Some (running_mean bn0) ∧ is_Some (running_var bn0) ∧
    ∀ w1 bn rm rv values mask,
      heap w1 !! _add_norm self = Some (OBatchNorm bn) →
      weight bn = None → bias bn = None →
      running_mean bn = Some rm → running_var bn = Some rv →
      match forward_layers (_layers self) values mask w1 with
      | (Raise e, w2) =>
          CompositeEncoder_forward self values mask w1 = (Raise e, w2)
      | (Ok v, w2) =>
          let (r, bn') := BatchNorm1d_forward bn v in
          CompositeEncoder_forward self values mask w1
          = (r, {| heap := <[_add_norm self := OBatchNorm bn']> (heap w2);
                   env := env w2 |}) ∧
          weight bn' = None ∧ bias bn' = None ∧ training bn' = training bn ∧
          is_Some (running_mean bn') ∧ is_Some (running_var bn') ∧
          ∀ out (N C L : nat),
            r = Ok out →
            shape v = [N; C; L] →
            length (data v) = (N * C * L)%nat →
            shape out = shape v ∧
            length (data out) = length (data v) ∧
            ∀ (i : nat) (x : F),
              data v !! i = Some x →
              let c := ((i / L) mod C)%nat in
              if training bn then
                let members :=
                  List.map snd
                    (List.filter (fun jx => Nat.eqb ((jx.1 / L) mod C) c)
                       (combine (seq 0 (length (data v))) (data v))) in
                let count := s_const (inject_Z (Z.of_nat (length members))) in
                let m := s_div (fold_left s_add members (s_const 0)) count in
                let var :=
                  s_div (fold_left s_add
                           (List.map (fun y => s_mul (s_sub y m) (s_sub y m))
                              members)
                           (s_const 0)) count in
                data out !! i
                = Some (s_div (s_sub x m) (s_sqrt (s_add var (eps bn))))
              else
                ∃ m var,
                  rm !! c = Some m ∧ rv !! c = Some var ∧
                  data out !! i
                  = Some (s_div (s_sub x m) (s_sqrt (s_add var (eps bn))))
      end.
Proof.
  intros Hinit.
  apply CompositeEncoder_init_inv in Hinit
    as (proto & copy & bn0 & _ & _ & _ & _ & _ & _ & _ & Hbn0 & Hnew & _).
  exists bn0. split; [done|].
  assert (weight bn0 = None ∧ bias bn0 = None ∧ training bn0 = true ∧
          is_Some (running_mean bn0) ∧ is_Some (running_var bn0)) as Hcfg.
  { unfold BatchNorm1d_new in Hnew.
    destruct (size proto <? 0); [done|]. injection Hnew as <-.
    cbn. by eauto 10. }
  destruct Hcfg as (Hw0 & Hb0 & Ht0 & Hrm0 & Hrv0).
  do 5 (split; [done|]).
  intros w1 bn rm rv values mask Hbn Hw Hb Hrm Hrv.
  rewrite CompositeEncoder_forward_unfold.
  destruct (forward_layers _ values mask w1) as [[v|e] w2] eqn:Hlayers; [|done].
  apply forward_layers_heap in Hlayers as Hheap.
  rewrite <- Hheap in Hbn.
  rewrite (call_batch_norm_Ok _ _ _ _ Hbn).
  pose proof (BatchNorm1d_forward_config bn v) as (Hw' & Hb' & Ht' & Hrm' & Hrv').
  destruct (BatchNorm1d_forward bn v) as [r bn'] eqn:Hfwd. cbn [fst snd] in *.
  split; [done|]. split; [congruence|]. split; [congruence|]. split; [done|].
  split; [apply Hrm'; by rewrite Hrm|]. split; [apply Hrv'; by rewrite Hrv|].
  intros out N C L -> Hshape Hlen.
  by apply (BatchNorm1d_forward_elements bn bn' v out rm rv N C L).
Qed.

End EncoderClaims.

(** *** Shapes *)

Section ShapeClaims.
Context {F Mask Env : Type} `{!Scalar F} `{!SubLayers F Mask Env}.

Implicit Types (w : World F) (b : EncoderBlock F) (self : CompositeEncoder).

(** The sub-modules keep their shape contracts: on a mask that is
    [compatible] with the input's shape, attention returns a tensor of the
    shape of its input; the feed-forward module returns a tensor of the shape
    of its input; a wrapper whose sublayer does so on tensors of the shape of
    [x] returns a tensor of the shape of [x]. *)
Variable compatible : Mask → list nat → Prop.

Hypothesis attention_shape : ∀ p x m e,
  compatible m (shape x) →
  ∃ y e', attention_forward p x x x m e = (Ok y, e') ∧ shape y = shape x.

Hypothesis feed_forward_shape : ∀ p x e,
  ∃ y e', feed_forward_forward p x e = (Ok y, e') ∧ shape y = shape x.

Hypothesis add_norm_shape : ∀ p x f e,
  (∀ x' e1, shape x' = shape x →
            ∃ y e2, f x' e1 = (Ok y, e2) ∧ shape y = shape x) →
  ∃ y e', add_norm_forward p x f e = (Ok y, e') ∧ shape y = shape x.

Lemma EncoderBlock_forward_shape b values mask e :
  compatible mask (shape values) →
  ∃ out e', EncoderBlock_forward b values mask e = (Ok out, e') ∧
            shape out = shape values.
Proof using attention_shape feed_forward_shape add_norm_shape.
  intros Hmask. unfold EncoderBlock_forward.
  destruct (add_norm_shape (_add_norm_layer_1 b) values
              (fun x => attention_forward (_self_attention b) x x x mask) e)
    as (v1 & e1 & Hv1 & Hs1).
  { intros x' e1 Hx'. rewrite <- Hx'. apply attention_shape. by rewrite Hx'. }
  destruct (add_norm_shape (_add_norm_layer_2 b) v1
              (feed_forward_forward (_feed_forward b)) e1)
    as (v2 & e2 & Hv2 & Hs2).
  { intros x' e' Hx'. rewrite <- Hx'. apply feed_forward_shape. }
  exists v2, e2. rewrite (St_bind_Ok _ _ _ _ _ Hv1), (St_bind_Ok _ _ _ _ _ Hv2).
  split; [done|]. congruence.
Qed.

Lemma forward_layers_shape layers values mask w :
  Forall (fun l => ∃ b, heap w !! l = Some (OBlock b)) layers →
  compatible mask (shape values) →
  ∃ out e', forward_layers layers values mask w
            = (Ok out, {| heap := heap w; env := e' |}) ∧
            shape out = shape values.
Proof using attention_shape feed_forward_shape add_norm_shape.
  revert values w. induction layers as [|l layers IH]; intros values w Hok Hmask.
  - exists values, (env w). by destruct w.
  - apply Forall_cons in Hok as [[b Hb] Hok]. simpl.
    destruct (EncoderBlock_forward_shape b values mask (env w) Hmask)
      as (v & e & Hv & Hs).
    unfold mbind, St_bind. rewrite (call_layer_Ok _ _ _ _ _ Hb), Hv.
    destruct (IH v {| heap := heap w; env := e |}) as (out & e' & Hout & Hs').
    { done. }
    { by rewrite Hs. }
    exists out, e'. rewrite Hout. split; [done|]. congruence.
Qed.

(** A stack whose normalization buffers do not have one entry per index of
    the second axis of [values] raises, whatever the blocks return. *)
Lemma CompositeEncoder_forward_mismatch self w bn values mask (B S D : nat) :
  layers_ok self w →
  heap w !! _add_norm self = Some (OBatchNorm bn) →
  has_size S (running_mean bn) = false →
  shape values = [B; S; D] →
  compatible mask (shape values) →
  ∃ e w', CompositeEncoder_forward self values mask w = (Raise e, w').
Proof using attention_shape feed_forward_shape add_norm_shape.
  intros Hlayers Hbn Hsize Hshape Hmask.
  destruct (forward_layers_shape (_layers self) values mask w Hlayers Hmask)
    as (v & e & Hv & Hs).
  rewrite CompositeEncoder_forward_unfold, Hv.
  rewrite (call_batch_norm_Ok _ bn) by done.
  destruct (BatchNorm1d_forward bn v) as [r bn'] eqn:Hfwd.
  destruct (BatchNorm1d_forward_mismatch bn v B S D r bn') as [e' ->]; try done.
  { by rewrite Hs, Hshape. }
  simpl. eauto.
Qed.

(** C2 (amended). When the sub-modules keep their shape contracts,
    [EncoderBlock.forward] returns a tensor of the shape of [values]; and
    [CompositeEncoder.forward] returns a tensor of the shape [[B; S; D]] of
    [values] when the buffers of the final normalization have [S] entries,
    one per index of the second axis, and, where the statistics of the batch
    are used, [B * D] is not 1. An encoder built by [__init__] has buffers of
    [size] entries and uses the statistics of the batch. *)
Theorem forward_preserves_shape :
  (∀ b values mask e,
     compatible mask (shape values) →
     ∃ out e', EncoderBlock_forward b values mask e = (Ok out, e') ∧
               shape out = shape values) ∧
  (∀ self w bn values mask (B S D : nat),
     layers_ok self w →
     heap w !! _add_norm self = Some (OBatchNorm bn) →
     norm_ok S bn →
     shape values = [B; S; D] →
     compatible mask (shape values) →
     (uses_batch_stats bn = true → (B * D)%nat ≠ 1%nat) →
     ∃ out w', CompositeEncoder_forward self values mask w = (Ok out, w') ∧
               shape out = [B; S; D]) ∧
  (∀ layer n w0 self w,
     CompositeEncoder_init layer n w0 = (Ok self, w) →
     ∃ proto bn,
       heap w0 !! layer = Some (OBlock proto) ∧
       0 ≤ size proto ∧
       layers_ok self w ∧
       heap w !! _add_norm self = Some (OBatchNorm bn) ∧
       norm_ok (Z.to_nat (size proto)) bn ∧
       uses_batch_stats bn = true).
Proof using attention_shape feed_forward_shape add_norm_shape.
  split; [apply EncoderBlock_forward_shape|].
  split; [|apply CompositeEncoder_init_ok].
  intros self w bn values mask B S D Hlayers Hbn Hnorm Hshape Hmask Hbatch.
  destruct (forward_layers_shape (_layers self) values mask w Hlayers Hmask)
    as (v & e & Hv & Hs).
  rewrite CompositeEncoder_forward_unfold, Hv.
  rewrite (call_batch_norm_Ok _ bn) by done.
  destruct (BatchNorm1d_forward_shape bn v B S D) as (out & bn' & Hout & Hs').
  { by rewrite Hs, Hshape. }
  { done. }
  { done. }
  rewrite Hout. simpl. eexists _, _. split; [done|]. congruence.
Qed.

End ShapeClaims.

(** ** The encoder under spies *)

Section SpyClaims.
Context {F Mask : Type} `{!Scalar F}.

Implicit Types (w : World F (Mask:=Mask)) (b : EncoderBlock F (Mask:=Mask)).

Lemma EncoderBlock_forward_spy b (values : Tensor F) (mask : Mask) (log : list (call F Mask)) :
  EncoderBlock_forward b values mask log
  = (Ok (block_out b values mask), log ++ block_calls b values mask).
Proof.
  unfold EncoderBlock_forward. cbn.
  unfold spy_add_norm, spy_attention, spy_feed_forward, record.
  unfold mbind, St_bind, mret, St_ret. cbn.
  by rewrite <- !app_assoc.
Qed.

(** With blocks behind all the references, the loop of [forward] feeds each
    block the output of the block before it, with the same mask. *)
Lemma forward_layers_spy layers bs (values : Tensor F) (mask : Mask) w :
  Forall2 (fun l b => heap w !! l = Some (OBlock b)) layers bs →
  forward_layers layers values mask w
  = (Ok (stack_out bs values mask),
     {| heap := heap w; env := env w ++ stack_calls bs values mask |}).
Proof.
  revert bs values w.
  induction layers as [|l layers IH]; intros bs values w Hbs.
  - apply Forall2_nil_inv_l in Hbs as ->. simpl.
    rewrite app_nil_r. unfold mret, St_ret. by destruct w.
  - apply Forall2_cons_inv_l in Hbs as (b & bs' & Hb & Hbs & ->).
    simpl. unfold mbind, St_bind.
    rewrite (call_layer_Ok _ _ _ _ _ Hb), EncoderBlock_forward_spy.
    rewrite (IH bs'); [|exact Hbs]. simpl. by rewrite <- app_assoc.
Qed.

(** The masks of the attention calls of a log, in order. *)
Lemma attention_masks_block b (values : Tensor F) (mask : Mask) :
  attention_masks (block_calls b values mask) = [mask].
Proof. done. Qed.

Lemma attention_masks_app (c1 c2 : list (call F Mask)) :
  attention_masks (c1 ++ c2) = attention_masks c1 ++ attention_masks c2.
Proof.
  induction c1 as [|[] c1 IH]; simpl; by rewrite ?IH.
Qed.

Lemma attention_masks_stack bs (values : Tensor F) (mask : Mask) :
  attention_masks (stack_calls bs values mask) = replicate (length bs) mask.
Proof.
  revert values. induction bs as [|b bs IH]; intros values; [done|].
  cbn [stack_calls]. rewrite attention_masks_app, IH. done.
Qed.

(** C8. On spy sub-modules, [EncoderBlock.forward] makes four calls, in
    this order: wrapper 1 on [values]; attention, from inside wrapper 1, with
    the wrapper's argument as query, key and value and with [mask]; wrapper 2
    on the result of wrapper 1; the feed-forward module, from inside wrapper
    2, on the wrapper's argument. It returns the result of wrapper 2. *)
Theorem EncoderBlock_forward_calls b (values : Tensor F) (mask : Mask) (log : list (call F Mask)) :
  EncoderBlock_forward b values mask log
  = (Ok (an_post (_add_norm_layer_2 b)
           (an_post (_add_norm_layer_1 b) values
              (_self_attention b values values values mask))
           (_feed_forward b
              (an_post (_add_norm_layer_1 b) values
                 (_self_attention b values values values mask)))),
     log ++
     [ CallAddNorm (an_id (_add_norm_layer_1 b)) values;
       CallAttention values values values mask;
       CallAddNorm (an_id (_add_norm_layer_2 b))
         (an_post (_add_norm_layer_1 b) values
            (_self_attention b values values values mask));
       CallFeedForward
         (an_post (_add_norm_layer_1 b) values
            (_self_attention b values values values mask)) ]).
Proof. apply EncoderBlock_forward_spy. Qed.

(** C9. On spy sub-modules and with blocks [bs] behind the references of
    [_layers], [CompositeEncoder.forward] runs the blocks in order, the
    first on [values] and each of the others on the output of the block
    before it; the calls recorded are those of the blocks in that order, and
    the attention calls among them, one per block, all carry [mask]. The
    output of the last block goes to the final normalization. *)
Theorem CompositeEncoder_forward_sequential self bs (values : Tensor F) (mask : Mask) w :
  Forall2 (fun l b => heap w !! l = Some (OBlock b)) (_layers self) bs →
  forward_layers (_layers self) values mask w
  = (Ok (stack_out bs values mask),
     {| heap := heap w; env := env w ++ stack_calls bs values mask |}) ∧
  CompositeEncoder_forward self values mask w
  = call_batch_norm (_add_norm self) (stack_out bs values mask)
      {| heap := heap w; env := env w ++ stack_calls bs values mask |} ∧
  attention_masks (stack_calls bs values mask)
  = replicate (length (_layers self)) mask.
Proof.
  intros Hbs. pose proof (forward_layers_spy _ _ values mask w Hbs) as Hfwd.
  split; [done|]. split.
  - by rewrite CompositeEncoder_forward_unfold, Hfwd.
  - rewrite attention_masks_stack. by rewrite (Forall2_length _ _ _ Hbs).
Qed.

End SpyClaims.

(** ** The claims on concrete inputs *)

Section Examples.
Import Toy QScalar Utils.

Lemma Qltb_asym a b : Qltb a b = true → Qltb b a = false.
Proof.
  unfold Qltb. rewrite negb_true_iff, negb_false_iff.
  intros H. apply Qle_bool_iff. apply Qnot_lt_le. intros Hlt.
  apply Qlt_le_weak, Qle_bool_iff in Hlt. congruence.
Qed.

Lemma Qltb_negtrans a b c :
  Qltb a b = false → Qltb b c = false → Qltb a c = false.
Proof.
  unfold Qltb. rewrite !negb_false_iff, !Qle_bool_iff.
  intros H1 H2. by eapply Qle_trans.
Qed.

Lemma vocabulary_indexes_rows : indexes_rows vocabulary embedding_table.
Proof.
  intros w i Hin. simpl in Hin.
  repeat (destruct Hin as [[= <- <-]|Hin]; [by eexists|]). done.
Qed.

Lemma get_cosine_similar_scores_witness :
  indexes_rows vocabulary embedding_table ∧
  dict_getitem vocabulary (lower "cat") = Ok 0 ∧
  ∃ we res,
    tensor_getitem embedding_table 0 = Ok we ∧
    get_cosine_similar "cat" vocabulary embedding_table = Ok res ∧
    (∀ w s, In (w, s) res ↔
            w ≠ "<MASK>" ∧ w ≠ "<UNK>" ∧ w ≠ "cat" ∧
            ∃ i r, In (w, i) vocabulary ∧
                   tensor_getitem embedding_table i = Ok r ∧ s = cos we r) ∧
    List.map fst res ≡ₚ List.filter (kept "cat") (List.map fst vocabulary).
Proof.
  split; [exact vocabulary_indexes_rows|]. split; [reflexivity|].
  exact (get_cosine_similar_scores "cat" vocabulary embedding_table 0
           vocabulary_indexes_rows eq_refl).
Defined.

Lemma get_cosine_similar_sorted_stable_witness :
  indexes_rows vocabulary embedding_table ∧
  dict_getitem vocabulary (lower "car") = Ok 2 ∧
  ∃ ds res,
    get_cosine_similar "car" vocabulary embedding_table = Ok res ∧
    List.map fst ds = List.filter (kept "car") (List.map fst vocabulary) ∧
    res ≡ₚ ds ∧
    StronglySorted (descending snd score_lt) res ∧
    (∀ s, List.filter (fun p => tied score_lt s p.2) res
          = List.filter (fun p => tied score_lt s p.2) ds) ∧
    (∀ res',
       StronglySorted (descending snd score_lt) res' →
       (∀ s, List.filter (fun p => tied score_lt s p.2) res'
             = List.filter (fun p => tied score_lt s p.2) ds) →
       res' = res).
Proof.
  split; [exact vocabulary_indexes_rows|]. split; [reflexivity|].
  exact (get_cosine_similar_sorted_stable "car" vocabulary embedding_table 2
           Qltb_asym Qltb_negtrans vocabulary_indexes_rows eq_refl).
Defined.

Lemma get_cosine_similar_KeyError_witness :
  (∀ i, ¬ In (lower "unknown_token", i) vocabulary) ∧
  get_cosine_similar "unknown_token" vocabulary embedding_table
  = Raise (KeyError "unknown_token").
Proof.
  assert (∀ i, ¬ In (lower "unknown_token", i) vocabulary) as H.
  { intros i Hin. simpl in Hin.
    repeat (destruct Hin as [Hin|Hin]; [discriminate Hin|]). done. }
  split; [exact H|].
  exact (get_cosine_similar_KeyError "unknown_token" vocabulary
           embedding_table H).
Defined.

Lemma get_cosine_similar_mixed_case_witness :
  "Cat" ≠ lower "Cat" ∧
  indexes_rows vocabulary embedding_table ∧
  dict_getitem vocabulary (lower "Cat") = Ok 0 ∧
  ∃ we res,
    tensor_getitem embedding_table 0 = Ok we ∧
    get_cosine_similar "Cat" vocabulary embedding_table = Ok res ∧
    In (lower "Cat", cos we we) res.
Proof.
  assert ("Cat" ≠ lower "Cat") as H by discriminate.
  split; [exact H|]. split; [exact vocabulary_indexes_rows|].
  split; [reflexivity|].
  exact (get_cosine_similar_mixed_case "Cat" vocabulary embedding_table 0
           H vocabulary_indexes_rows eq_refl).
Defined.

(** The example of the spec, and the same query in mixed case. *)
Example rank_neighbors_cat :
  get_cosine_similar "cat" vocabulary embedding_table
  = Ok [("dog", 1%Q); ("car", 0%Q)].
Proof. vm_compute. reflexivity. Qed.

Example rank_neighbors_Cat :
  get_cosine_similar "Cat" vocabulary embedding_table
  = Ok [("cat", 1%Q); ("dog", 1%Q); ("car", 0%Q)].
Proof. vm_compute. reflexivity. Qed.

End Examples.

Section ToyExamples.
Import Toy QScalar.
#[local] Existing Instance toy_sublayers.

Lemma init_encoder2 :
  CompositeEncoder_init 0%nat 2 world0 = (Ok encoder2, world2).
Proof. vm_compute. reflexivity. Qed.

Lemma CompositeEncoder_layers_aliased_witness :
  CompositeEncoder_init 0%nat 2 world0 = (Ok encoder2, world2) ∧
  _layers encoder2 !! 0%nat = Some 1%nat ∧
  _layers encoder2 !! 1%nat = Some 1%nat ∧
  1%nat = 1%nat ∧
  load_block 1%nat (set_parameters 1%nat (block 0) world2)
  = (Ok (block 0), set_parameters 1%nat (block 0) world2) ∧
  ∀ values mask,
    call_layer 1%nat values mask (set_parameters 1%nat (block 0) world2)
    = let '(r, e) := EncoderBlock_forward (block 0) values mask (env world2) in
      (r, {| heap := <[1%nat := OBlock (block 0)]> (heap world2); env := e |}).
Proof.
  split; [exact init_encoder2|]. split; [reflexivity|]. split; [reflexivity|].
  exact (CompositeEncoder_layers_aliased 0%nat 2 world0 encoder2 world2
           0%nat 1%nat 1%nat 1%nat (block 0) init_encoder2 eq_refl eq_refl).
Defined.

(** Setting the parameters of the first block of [encoder2] to 0 changes
    what its second block computes. *)
Example CompositeEncoder_blocks_not_independent :
  ∃ l0 l1,
    _layers encoder2 !! 0%nat = Some l0 ∧
    _layers encoder2 !! 1%nat = Some l1 ∧
    (call_layer l1 values_1_2_3 tt world2).1
    = Ok {| shape := [1; 2; 3]%nat; data := [4; 8; 12; 16; 20; 24]%Q |} ∧
    (call_layer l1 values_1_2_3 tt (set_parameters l0 (block 0) world2)).1
    = Ok {| shape := [1; 2; 3]%nat; data := [1; 2; 3; 4; 5; 6]%Q |}.
Proof. exists 1%nat, 1%nat. vm_compute. done. Qed.

(** C2 (as stated) fails: a stack built from a block of size 3 refuses an
    input of shape [[1; 2; 3]]. *)
Lemma CompositeEncoder_forward_shape_counterexample :
  ¬ (∀ layer n w0 proto self w values mask (B S D : nat),
       heap w0 !! layer = Some (OBlock proto) →
       size proto = Z.of_nat D →
       CompositeEncoder_init layer n w0 = (Ok self, w) →
       shape values = [B; S; D] →
       ∃ out w', CompositeEncoder_forward self values mask w = (Ok out, w') ∧
                 shape out = [B; S; D]).
Proof.
  intros Hclaim.
  destruct (Hclaim 0%nat 2 world0 (block 1) encoder2 world2 values_1_2_3 tt
              1%nat 2%nat 3%nat eq_refl eq_refl init_encoder2 eq_refl)
    as (out & w' & Hout & _).
  apply (f_equal fst) in Hout. vm_compute in Hout. discriminate Hout.
Qed.

Lemma toy_attention_shape : ∀ p x (m : unit) (e : unit),
  True →
  ∃ y e', attention_forward p x x x m e = (Ok y, e') ∧ shape y = shape x.
Proof. intros. by eexists _, _. Qed.

Lemma toy_feed_forward_shape : ∀ p x (e : unit),
  ∃ y e', feed_forward_forward p x e = (Ok y, e') ∧ shape y = shape x.
Proof. intros. by eexists _, _. Qed.

Lemma toy_add_norm_shape : ∀ p x f (e : unit),
  (∀ x' e1, shape x' = shape x →
            ∃ y e2, f x' e1 = (Ok y, e2) ∧ shape y = shape x) →
  ∃ y e', add_norm_forward p x f e = (Ok y, e') ∧ shape y = shape x.
Proof.
  intros p x f e Hf. destruct (Hf x e eq_refl) as (y & e2 & Hy & _).
  exists (add x y), e2. split; [|done].
  simpl. unfold mbind, St_bind. by rewrite Hy.
Qed.

Lemma encoder2_layers_ok : layers_ok encoder2 world2.
Proof. repeat constructor; by exists (block 1). Qed.

Lemma forward_preserves_shape_witness :
  (∃ out e', EncoderBlock_forward (block 1) values_1_2_3 tt tt = (Ok out, e') ∧
             shape out = shape values_1_2_3) ∧
  (∃ out w', CompositeEncoder_forward encoder2 values_1_3_3 tt world2
             = (Ok out, w') ∧
             shape out = [1; 3; 3]%nat) ∧
  (∃ proto bn,
     heap world0 !! 0%nat = Some (OBlock proto) ∧
     0 ≤ size proto ∧
     layers_ok encoder2 world2 ∧
     heap world2 !! _add_norm encoder2 = Some (OBatchNorm bn) ∧
     norm_ok (Z.to_nat (size proto)) bn ∧
     uses_batch_stats bn = true).
Proof.
  destruct (forward_preserves_shape (fun _ _ => True)
              toy_attention_shape toy_feed_forward_shape toy_add_norm_shape)
    as (Hblock & Hstack & Hinit).
  split; [|split].
  - exact (Hblock (block 1) values_1_2_3 tt tt I).
  - refine (Hstack encoder2 world2 norm0 values_1_3_3 tt 1%nat 3%nat 3%nat
              encoder2_layers_ok eq_refl _ eq_refl I _).
    + repeat split.
    + intros _. discriminate.
  - exact (Hinit 0%nat 2 world0 encoder2 world2 init_encoder2).
Defined.

End ToyExamples.

Section ToyExamples2.
Import Toy QScalar.
#[local] Existing Instance toy_sublayers.

Lemma CompositeEncoder_forward_batch_norm_witness :
  CompositeEncoder_init 0%nat 2 world0 = (Ok encoder2, world2) ∧
  ∃ bn0,
    heap world2 !! _add_norm encoder2 = Some (OBatchNorm bn0) ∧
    weight bn0 = None ∧ bias bn0 = None ∧ training bn0 = true ∧
    is_Some (running_mean bn0) ∧ is_Some (running_var bn0) ∧
    ∀ w1 bn rm rv values mask,
      heap w1 !! _add_norm encoder2 = Some (OBatchNorm bn) →
      weight bn = None → bias bn = None →
      running_mean bn = Some rm → running_var bn = Some rv →
      match forward_layers (_layers encoder2) values mask w1 with
      | (Raise e, w2) =>
          CompositeEncoder_forward encoder2 values mask w1 = (Raise e, w2)
      | (Ok v, w2) =>
          let (r, bn') := BatchNorm1d_forward bn v in
          CompositeEncoder_forward encoder2 values mask w1
          = (r, {| heap := <[_add_norm encoder2 := OBatchNorm bn']> (heap w2);
                   env := env w2 |}) ∧
          weight bn' = None ∧ bias bn' = None ∧ training bn' = training bn ∧
          is_Some (running_mean bn') ∧ is_Some (running_var bn') ∧
          ∀ out (N C L : nat),
            r = Ok out →
            shape v = [N; C; L] →
            length (data v) = (N * C * L)%nat →
            shape out = shape v ∧
            length (data out) = length (data v) ∧
            ∀ (i : nat) (x : Q),
              data v !! i = Some x →
              let c := ((i / L) mod C)%nat in
              if training bn then
                let members :=
                  List.map snd
                    (List.filter (fun jx => Nat.eqb ((jx.1 / L) mod C) c)
                       (combine (seq 0 (length (data v))) (data v))) in
                let count := s_const (inject_Z (Z.of_nat (length members))) in
                let m := s_div (fold_left s_add members (s_const 0)) count in
                let var :=
                  s_div (fold_left s_add
                           (List.map (fun y => s_mul (s_sub y m) (s_sub y m))
                              members)
                           (s_const 0)) count in
                data out !! i
                = Some (s_div (s_sub x m) (s_sqrt (s_add var (eps bn))))
              else
                ∃ m var,
                  rm !! c = Some m ∧ rv !! c = Some var ∧
                  data out !! i
                  = Some (s_div (s_sub x m) (s_sqrt (s_add var (eps bn))))
      end.
Proof.
  split; [exact init_encoder2|].
  exact (CompositeEncoder_forward_batch_norm 0%nat 2 world0 encoder2 world2
           init_encoder2).
Defined.

(** The final normalization on an input of shape [[1; 3; 3]]: each of the
    three rows is a channel and is standardized on its own. *)
Example final_norm_values :
  (CompositeEncoder_forward encoder2 values_1_3_3 tt world2).1
  = Ok {| shape := [1; 3; 3]%nat;
          data := [-48000 # 39189; 0 # 39189; 48000 # 39189;
                   -48000 # 39189; 0 # 39189; 48000 # 39189;
                   -48000 # 39189; 0 # 39189; 48000 # 39189]%Q |}.
Proof. vm_compute. reflexivity. Qed.

Lemma init_encoder1 :
  CompositeEncoder_init 0%nat 1 world_size1 = (Ok encoder1, world1 true).
Proof. vm_compute. reflexivity. Qed.

(** C3 (as stated) fails. A tensor standardized across the feature
    dimension has features that add up to zero at every position of every
    sequence. For the stack built from a block of size 1 and the input
    [[[0, 2]], [[4, 6]]] they do not: the one index of the second axis pools
    both sequences. *)
Lemma CompositeEncoder_forward_final_norm_counterexample :
  ¬ (∀ (values out : Tensor Q) w' (B S D b s : nat),
       CompositeEncoder_init 0%nat 1 world_size1 = (Ok encoder1, world1 true) →
       shape values = [B; S; D] →
       CompositeEncoder_forward encoder1 values tt (world1 true) = (Ok out, w') →
       (b < B)%nat → (s < S)%nat →
       Qeq (fold_left Qplus
              (firstn D (skipn ((b * S + s) * D) (data out))) 0%Q) 0%Q).
Proof.
  intros Hclaim.
  destruct (CompositeEncoder_forward encoder1 values_2_1_2 tt (world1 true))
    as [[out|e] w'] eqn:E; [|vm_compute in E; discriminate E].
  specialize (Hclaim values_2_1_2 out w' 2%nat 1%nat 2%nat 0%nat 0%nat
                init_encoder1 eq_refl E).
  vm_compute in E. injection E as <- _.
  specialize (Hclaim ltac:(lia) ltac:(lia)).
  vm_compute in Hclaim. discriminate Hclaim.
Qed.

(** The same stack in evaluation mode, fresh: the running estimates are 0
    and 1, and the output is the block output divided by [sqrt(1 + eps)]
    (here 1, to three decimals). *)
Example final_norm_eval_mode :
  (CompositeEncoder_forward encoder1 values_2_1_2 tt (world1 false)).1
  = Ok {| shape := [2; 1; 2]%nat;
          data := [0 # 1000; 8000 # 1000; 16000 # 1000; 24000 # 1000]%Q |}.
Proof. vm_compute. reflexivity. Qed.

End ToyExamples2.

Section SpyExamples.
Import Toy QScalar Spy.

Lemma CompositeEncoder_forward_sequential_witness :
  Forall2 (fun l b => heap spy_world !! l = Some (OBlock b))
    (_layers encoder2) [spy_block; spy_block] ∧
  forward_layers (_layers encoder2) values_1_2_3 7%nat spy_world
  = (Ok (stack_out [spy_block; spy_block] values_1_2_3 7%nat),
     {| heap := heap spy_world;
        env := env spy_world
               ++ stack_calls [spy_block; spy_block] values_1_2_3 7%nat |}) ∧
  CompositeEncoder_forward encoder2 values_1_2_3 7%nat spy_world
  = call_batch_norm (_add_norm encoder2)
      (stack_out [spy_block; spy_block] values_1_2_3 7%nat)
      {| heap := heap spy_world;
         env := env spy_world
                ++ stack_calls [spy_block; spy_block] values_1_2_3 7%nat |} ∧
  attention_masks (stack_calls [spy_block; spy_block] values_1_2_3 7%nat)
  = replicate (length (_layers encoder2)) 7%nat.
Proof.
  assert (Forall2 (fun l b => heap spy_world !! l = Some (OBlock b))
            (_layers encoder2) [spy_block; spy_block]) as H.
  { repeat constructor. }
  split; [exact H|].
  exact (CompositeEncoder_forward_sequential encoder2 [spy_block; spy_block]
           values_1_2_3 7%nat spy_world H).
Defined.

(** The log of the two blocks of the example: the second block is given the
    output of the first, and both attention calls carry the mask 7. *)
Example spy_log :
  (forward_layers (_layers encoder2) values_1_2_3 7%nat spy_world).2.(env)
  = let v1 := {| shape := [1; 2; 3]%nat; data := [1; 2; 3; 4; 5; 6]%Q |} in
    let m1 := {| shape := [1; 2; 3]%nat; data := [3; 6; 9; 12; 15; 18]%Q |} in
    let v2 := {| shape := [1; 2; 3]%nat; data := [12; 24; 36; 48; 60; 72]%Q |} in
    let m2 := {| shape := [1; 2; 3]%nat;
                 data := [36; 72; 108; 144; 180; 216]%Q |} in
    [ CallAddNorm 1 v1; CallAttention v1 v1 v1 7%nat;
      CallAddNorm 2 m1; CallFeedForward m1;
      CallAddNorm 1 v2; CallAttention v2 v2 v2 7%nat;
      CallAddNorm 2 m2; CallFeedForward m2 ].
Proof. vm_compute. reflexivity. Qed.

End SpyExamples.

(** * Further properties *)

(** ** [set_seed_everywhere] *)

Lemma map_const_length {A B} (b : B) (l l' : list A) :
  length l = length l' →
  List.map (fun _ => b) l = List.map (fun _ => b) l'.
Proof.
  revert l'. induction l as [|x l IH]; intros [|x' l'] Hlen; try done.
  simpl. f_equal. apply IH. by injection Hlen.
Qed.

(** X1. What [set_seed_everywhere] leaves behind does not depend on what the
    generators held before, only on the number of CUDA devices; calling it a
    second time changes nothing. *)
Theorem set_seed_everywhere_forgets (s s' : Utils.rng_state) :
  length (Utils.torch_cuda s) = length (Utils.torch_cuda s') →
  Utils.set_seed_everywhere s = Utils.set_seed_everywhere s' ∧
  Utils.set_seed_everywhere (Utils.set_seed_everywhere s)
  = Utils.set_seed_everywhere s.
Proof.
  intros Hlen.
  assert (∀ a b, length (Utils.torch_cuda a) = length (Utils.torch_cuda b) →
                 Utils.set_seed_everywhere a = Utils.set_seed_everywhere b) as H.
  { intros [np td cuda] [np' td' cuda'] Hl. simpl in Hl.
    unfold Utils.set_seed_everywhere, Utils.torch_cuda_manual_seed_all,
      Utils.torch_manual_seed, Utils.np_random_seed. simpl. f_equal.
    apply map_const_length. by rewrite !length_map. }
  split; [by apply H|]. apply H.
  destruct s as [np td cuda].
  unfold Utils.set_seed_everywhere, Utils.torch_cuda_manual_seed_all,
    Utils.torch_manual_seed, Utils.np_random_seed. simpl.
  by rewrite !length_map.
Qed.

(** ** [get_cosine_similar] *)

Section GetCosineSimilarMore.
Import Utils.
Context {Vec Score : Type} `{!Similarity Vec Score}.

(** [t[i]] returns a row exactly for the indices from [-n] to [n - 1]. *)
Lemma tensor_getitem_Ok_iff {R} (rows : list R) i :
  (∃ r, tensor_getitem rows i = Ok r)
  ↔ - Z.of_nat (length rows) ≤ i < Z.of_nat (length rows).
Proof.
  unfold tensor_getitem.
  set (n := Z.of_nat (length rows)).
  set (j := if i <? 0 then i + n else i).
  assert (- n ≤ i < n ↔ 0 ≤ j < n) as Hj.
  { unfold j. destruct (Z.ltb_spec i 0); lia. }
  rewrite Hj. destruct ((0 <=? j) && (j <? n)) eqn:E.
  - apply andb_true_iff in E as [E1%Z.leb_le E2%Z.ltb_lt].
    destruct (rows !! Z.to_nat j) as [r|] eqn:Hr.
    + split; [lia|eauto].
    + apply lookup_ge_None in Hr. unfold n in *. lia.
  - split; [by intros [r ?]|].
    intros [H1 H2]. apply andb_false_iff in E as [E%Z.leb_gt|E%Z.ltb_ge]; lia.
Qed.

Lemma tensor_getitem_Raise {R} (rows : list R) i :
  ¬ (- Z.of_nat (length rows) ≤ i < Z.of_nat (length rows)) →
  tensor_getitem rows i = Raise (IndexError i (length rows)).
Proof.
  intros Hi. pose proof (tensor_getitem_Ok_iff rows i) as Hiff.
  unfold tensor_getitem in *.
  destruct (_ && _); [|done].
  destruct (rows !! _) as [r|]; [|done].
  destruct Hi. apply Hiff. eauto.
Qed.

(** The loop, when the rows of the tokens it does not skip exist. *)
Lemma distances_loop_kept_Ok t emb we items acc :
  (∀ w i, In (w, i) items → kept t w = true →
          ∃ r, tensor_getitem emb i = Ok r) →
  ∃ ds, distances_loop t emb we items acc = Ok (acc ++ ds) ∧
        Forall2 (scored emb we) (List.filter (fun kv => kept t kv.1) items) ds.
Proof.
  revert acc. induction items as [|[w i] items IH]; intros acc Hrows.
  { exists []. by rewrite app_nil_r. }
  assert (∀ w' i', In (w', i') items → kept t w' = true →
                   ∃ r, tensor_getitem emb i' = Ok r) as Hrows'.
  { intros w' i' Hin. apply (Hrows w' i'). by right. }
  cbn [distances_loop List.filter]. unfold distances_step, kept at 1.
  cbn [fst snd].
  destruct (str_in w _) eqn:Ek; cbn.
  - by apply IH.
  - destruct (Hrows w i) as [r Hr]; [by left|unfold kept; by rewrite Ek|].
    rewrite Hr. cbn.
    destruct (IH (acc ++ [(w, cos we r)]) Hrows') as (ds & Hds & Hall).
    exists ((w, cos we r) :: ds). rewrite Hds, <- app_assoc.
    split; [done|]. constructor; [|done]. split; [done|]. by exists r.
Qed.

(** The loop stops at the first token it does not skip whose row does not
    exist. *)
Lemma distances_loop_Raise t emb we pre w i post acc e :
  (∀ w' i', In (w', i') pre → kept t w' = true →
            ∃ r, tensor_getitem emb i' = Ok r) →
  kept t w = true →
  tensor_getitem emb i = Raise e →
  distances_loop t emb we (pre ++ (w, i) :: post) acc = Raise e.
Proof.
  revert acc. induction pre as [|[w' i'] pre IH]; intros acc Hpre Hk Hi.
  - cbn [app distances_loop]. unfold distances_step.
    unfold kept in Hk. apply negb_true_iff in Hk. rewrite Hk, Hi. done.
  - assert (∀ w'' i'', In (w'', i'') pre → kept t w'' = true →
                       ∃ r, tensor_getitem emb i'' = Ok r) as Hpre'.
    { intros w'' i'' Hin. apply (Hpre w'' i''). by right. }
    cbn [app distances_loop]. unfold distances_step.
    destruct (str_in w' _) eqn:Ek; cbn.
    + by apply IH.
    + destruct (Hpre w' i') as [r Hr]; [by left|unfold kept; by rewrite Ek|].
      rewrite Hr. cbn. by apply IH.
Qed.

Lemma distances_loop_inv t emb we items acc ds :
  distances_loop t emb we items acc = Ok ds →
  ∀ w i, In (w, i) items → kept t w = true →
         ∃ r, tensor_getitem emb i = Ok r.
Proof.
  revert acc. induction items as [|[w' i'] items IH]; intros acc Hloop w i Hin Hk.
  { destruct Hin. }
  cbn [distances_loop] in Hloop. unfold distances_step in Hloop.
  destruct (str_in w' _) eqn:Ek; cbn in Hloop.
  - destruct Hin as [[= -> ->]|Hin]; [|by eapply IH].
    unfold kept in Hk. by rewrite Ek in Hk.
  - destruct (tensor_getitem emb i') as [r|e] eqn:Hr; [|done]. cbn in Hloop.
    destruct Hin as [[= -> ->]|Hin]; [eauto|by eapply IH].
Qed.

(** X2. [get_cosine_similar] returns a list exactly when the lower-cased
    target is a key whose index lies within the embedding tensor and the
    index of every token other than ["<MASK>"], ["<UNK>"] and [target_word]
    lies within it too; the indices of these three are not looked at in the
    loop. An index lies within a tensor of [n] rows when it is between [-n]
    and [n - 1]. *)
Theorem get_cosine_similar_returns_iff (t : string) (d : dict Z) (emb : list Vec) :
  let n := Z.of_nat (length emb) in
  (∃ res, get_cosine_similar t d emb = Ok res)
  ↔ (∃ i0, dict_getitem d (lower t) = Ok i0 ∧ - n ≤ i0 < n) ∧
    (∀ w i, In (w, i) d →
            w ≠ "<MASK>" → w ≠ "<UNK>" → w ≠ t → - n ≤ i < n).
Proof.
  intros n. unfold get_cosine_similar. split.
  - intros [res Hres].
    destruct (dict_getitem d (lower t)) as [i0|] eqn:Hkey; [|done].
    cbn in Hres.
    destruct (tensor_getitem emb i0) as [we|] eqn:Hwe; [|done].
    cbn in Hres.
    destruct (distances_loop t emb we d []) as [ds|] eqn:Hloop; [|done].
    split.
    + exists i0. split; [done|]. apply tensor_getitem_Ok_iff. eauto.
    + intros w i Hin HM HU Ht. apply tensor_getitem_Ok_iff.
      eapply distances_loop_inv; [exact Hloop|exact Hin|].
      by apply kept_true.
  - intros [(i0 & Hkey & Hi0) Hrows].
    apply tensor_getitem_Ok_iff in Hi0 as [we Hwe].
    destruct (distances_loop_kept_Ok t emb we d []) as (ds & Hds & _).
    { intros w i Hin Hk. apply tensor_getitem_Ok_iff.
      apply kept_true in Hk as (? & ? & ?). by apply (Hrows w i Hin). }
    rewrite Hkey. cbn. rewrite Hwe. cbn. rewrite Hds. cbn. eauto.
Qed.

(** X3. When the lower-cased target is a key and its index, a 64-bit
    integer, lies outside the embedding tensor, [get_cosine_similar] raises
    [IndexError] for that index, whatever the other entries of the
    vocabulary are. *)
Theorem get_cosine_similar_target_IndexError (t : string) (d : dict Z) (emb : list Vec) (i0 : Z) :
  dict_getitem d (lower t) = Ok i0 →
  - 2 ^ 63 ≤ i0 < 2 ^ 63 →
  ¬ (- Z.of_nat (length emb) ≤ i0 < Z.of_nat (length emb)) →
  get_cosine_similar t d emb = Raise (IndexError i0 (length emb)).
Proof.
  intros Hkey _ Hi0. unfold get_cosine_similar. rewrite Hkey. cbn.
  by rewrite (tensor_getitem_Raise emb i0 Hi0).
Qed.

(** X4. When the target's row exists, [get_cosine_similar] raises
    [IndexError] for the first token in iteration order, among those other
    than ["<MASK>"], ["<UNK>"] and [target_word], whose index lies outside
    the embedding tensor, when that index is a 64-bit integer. *)
Theorem get_cosine_similar_loop_IndexError (t : string) (pre post : dict Z) (w : string) (i : Z)
    (emb : list Vec) (i0 : Z) :
  let n := Z.of_nat (length emb) in
  dict_getitem (pre ++ (w, i) :: post) (lower t) = Ok i0 →
  - n ≤ i0 < n →
  (∀ w' i', In (w', i') pre →
            w' ≠ "<MASK>" → w' ≠ "<UNK>" → w' ≠ t → - n ≤ i' < n) →
  w ≠ "<MASK>" → w ≠ "<UNK>" → w ≠ t →
  - 2 ^ 63 ≤ i < 2 ^ 63 →
  ¬ (- n ≤ i < n) →
  get_cosine_similar t (pre ++ (w, i) :: post) emb
  = Raise (IndexError i (length emb)).
Proof.
  intros n Hkey Hi0 Hpre HM HU Ht _ Hi.
  apply tensor_getitem_Ok_iff in Hi0 as [we Hwe].
  unfold get_cosine_similar. rewrite Hkey. cbn. rewrite Hwe. cbn.
  rewrite (distances_loop_Raise t emb we pre w i post []
             (IndexError i (length emb))); [done| | |].
  - intros w' i' Hin Hk. apply tensor_getitem_Ok_iff.
    apply kept_true in Hk as (? & ? & ?). by apply (Hpre w' i' Hin).
  - by apply kept_true.
  - by apply tensor_getitem_Raise.
Qed.

End GetCosineSimilarMore.

(** ** Sorting a part of a list *)

Section SortedFilter.
Context {A K : Type} (key : A → K) (lt : K → K → bool).

Hypothesis lt_asym : ∀ a b, lt a b = true → lt b a = false.
Hypothesis lt_negtrans : ∀ a b c, lt a b = false → lt b c = false → lt a c = false.

Lemma insert_stable_first x l :
  Forall (fun z => lt (key z) (key x) = false) l →
  insert_stable key lt x l = x :: l.
Proof using Type.
  destruct 1 as [|y l Hy _]; [done|]. simpl. by rewrite Hy.
Qed.

Lemma insert_stable_filter (f : A → bool) x l :
  StronglySorted (Py.ascending key lt) l →
  List.filter f (insert_stable key lt x l)
  = if f x then insert_stable key lt x (List.filter f l) else List.filter f l.
Proof using lt_negtrans.
  induction 1 as [|y l Hl IH Hy].
  { simpl. by destruct (f x). }
  cbn [insert_stable]. destruct (lt (key y) (key x)) eqn:E.
  - cbn [List.filter]. rewrite IH.
    destruct (f y), (f x); cbn [insert_stable]; by rewrite ?E.
  - assert (Forall (fun z => lt (key z) (key x) = false)
              (List.filter f (y :: l))) as Hall.
    { apply Forall_forall. intros z Hz.
      apply list_elem_of_In, filter_In in Hz as [[<-|Hz] _]; [done|].
      rewrite Forall_forall in Hy. apply list_elem_of_In, Hy in Hz.
      unfold Py.ascending in Hz. by eapply lt_negtrans. }
    rewrite (insert_stable_first _ _ Hall).
    change (List.filter f (x :: y :: l))
      with (if f x then x :: List.filter f (y :: l) else List.filter f (y :: l)).
    done.
Qed.

Lemma sort_stable_filter (f : A → bool) l :
  List.filter f (sort_stable key lt l) = sort_stable key lt (List.filter f l).
Proof using lt_asym lt_negtrans.
  induction l as [|x l IH]; [done|]. simpl.
  rewrite insert_stable_filter by (by apply sort_stable_sorted).
  rewrite IH. by destruct (f x).
Qed.

(** Sorting and then dropping elements is dropping them and then sorting. *)
Lemma sorted_reverse_filter (f : A → bool) l :
  List.filter f (sorted_reverse key lt l)
  = sorted_reverse key lt (List.filter f l).
Proof using lt_asym lt_negtrans.
  unfold sorted_reverse. by rewrite filter_rev, sort_stable_filter, filter_rev.
Qed.

End SortedFilter.

Section GetCosineSimilarVocabulary.
Import Utils.
Context {Vec Score : Type} `{!Similarity Vec Score}.

Hypothesis lt_asym : ∀ a b, score_lt a b = true → score_lt b a = false.
Hypothesis lt_negtrans :
  ∀ a b c, score_lt a b = false → score_lt b c = false → score_lt a c = false.

(** The pair of an item is determined by the item. *)
Lemma scored_functional emb we items ds ds' :
  Forall2 (scored emb we) items ds →
  Forall2 (scored emb we) items ds' →
  ds = ds'.
Proof using Type.
  intros H. revert ds'. induction H as [|item p items ds Hp _ IH]; intros ds' H'.
  - by apply Forall2_nil_inv_l in H' as ->.
  - apply Forall2_cons_inv_l in H' as (p' & ds'' & Hp' & H' & ->).
    f_equal; [|by apply IH].
    destruct Hp as [Hw (r & Hr & Hs)], Hp' as [Hw' (r' & Hr' & Hs')].
    rewrite Hr in Hr'. injection Hr' as <-.
    destruct p, p'. simpl in *. congruence.
Qed.

Lemma scored_filter emb we (f : string → bool) items ds :
  Forall2 (scored emb we) items ds →
  Forall2 (scored emb we) (List.filter (fun kv => f kv.1) items)
    (List.filter (fun p => f p.1) ds).
Proof using Type.
  induction 1 as [|item p items ds Hp _ IH]; simpl; [constructor|].
  destruct Hp as [Hw Hs]. rewrite Hw.
  destruct (f item.1); [|done]. constructor; [|done]. by split.
Qed.

Lemma filter_filter_ext {B} (f g h : B → bool) (l : list B) :
  (∀ x, In x l → f x && g x = h x) →
  List.filter f (List.filter g l) = List.filter h l.
Proof using Type.
  induction l as [|x l IH]; intros Hext; [done|].
  cbn [List.filter]. rewrite <- (Hext x (or_introl eq_refl)).
  rewrite <- IH by (intros y Hy; apply Hext; by right).
  destruct (g x), (f x) eqn:Ef; cbn [List.filter andb]; by rewrite ?Ef.
Qed.

Lemma dict_getitem_filter (f : string → bool) (d : dict Z) k :
  f k = true →
  dict_getitem (List.filter (fun kv => f kv.1) d) k = dict_getitem d k.
Proof using Type.
  intros Hk. unfold dict_getitem.
  induction d as [|[w i] d IH]; [done|]. simpl.
  destruct (f w) eqn:Ef; simpl.
  - destruct (String.eqb w k); [done|exact IH].
  - destruct (String.eqb_spec w k) as [->|_]; [congruence|exact IH].
Qed.

Lemma ascii_lower_idemp c : ascii_lower (ascii_lower c) = ascii_lower c.
Proof using Type.
  destruct c as [[] [] [] [] [] [] [] []]; vm_compute; reflexivity.
Qed.

Lemma lower_idemp t : lower (lower t) = lower t.
Proof using Type.
  induction t as [|c t IH]; [done|]. simpl. by rewrite ascii_lower_idemp, IH.
Qed.

(** X5. The case of the target decides only whether the target's own token
    is listed. When [target_word] is not itself a key (or is already in lower
    case), the list for [target_word], without the entries of the
    lower-cased token, is the list for the lower-cased target: same pairs,
    same order. *)
Theorem get_cosine_similar_case (t : string) (d : dict Z) (emb : list Vec) (i0 : Z) :
  indexes_rows d emb →
  dict_getitem d (lower t) = Ok i0 →
  (∀ i, In (t, i) d → t = lower t) →
  ∃ res res',
    get_cosine_similar t d emb = Ok res ∧
    get_cosine_similar (lower t) d emb = Ok res' ∧
    List.filter (fun p => negb (String.eqb p.1 (lower t))) res = res'.
Proof using lt_asym lt_negtrans.
  intros Hrows Hkey Hcase.
  destruct (get_cosine_similar_Ok t d emb i0 Hrows Hkey)
    as (we & ds & Hwe & Hall & Hres).
  destruct (get_cosine_similar_Ok (lower t) d emb i0 Hrows)
    as (we' & ds' & Hwe' & Hall' & Hres').
  { by rewrite lower_idemp. }
  rewrite Hwe in Hwe'. injection Hwe' as <-.
  exists (sorted_reverse snd score_lt ds), (sorted_reverse snd score_lt ds').
  split; [done|]. split; [done|].
  rewrite (sorted_reverse_filter snd score_lt lt_asym lt_negtrans). f_equal.
  apply (scored_functional emb we (List.filter (fun kv => kept (lower t) kv.1) d));
    [|done].
  pose proof (scored_filter emb we
                (fun w => negb (String.eqb w (lower t))) _ _ Hall) as Hf.
  rewrite (filter_filter_ext _ _ (fun kv => kept (lower t) kv.1)) in Hf; [done|].
  intros [w i] Hin. simpl.
  destruct (String.eqb_spec w (lower t)) as [->|Hne]; simpl.
  - symmetry. apply not_true_is_false. rewrite kept_true. tauto.
  - destruct (kept t w) eqn:Ek.
    + symmetry. apply kept_true in Ek as (? & ? & ?). by apply kept_true.
    + symmetry. apply not_true_is_false. intros Ek'.
      apply kept_true in Ek' as (HM & HU & _).
      apply not_true_iff_false in Ek. apply Ek, kept_true.
      split; [done|]. split; [done|].
      intros ->. apply Hne. by apply (Hcase i).
Qed.

(** X6. Restricting the vocabulary to a set of tokens that contains the
    lower-cased target restricts the result to these tokens: their scores and
    their order stay as they are. *)
Theorem get_cosine_similar_restrict (f : string → bool) (t : string) (d : dict Z)
    (emb : list Vec) (i0 : Z) :
  indexes_rows d emb →
  dict_getitem d (lower t) = Ok i0 →
  f (lower t) = true →
  ∃ res,
    get_cosine_similar t d emb = Ok res ∧
    get_cosine_similar t (List.filter (fun kv => f kv.1) d) emb
    = Ok (List.filter (fun p => f p.1) res).
Proof using lt_asym lt_negtrans.
  intros Hrows Hkey Hf.
  destruct (get_cosine_similar_Ok t d emb i0 Hrows Hkey)
    as (we & ds & Hwe & Hall & Hres).
  destruct (get_cosine_similar_Ok t (List.filter (fun kv => f kv.1) d) emb i0)
    as (we' & ds' & Hwe' & Hall' & Hres').
  { intros w i Hin. apply filter_In in Hin as [Hin _]. by apply (Hrows w i). }
  { by rewrite dict_getitem_filter. }
  rewrite Hwe in Hwe'. injection Hwe' as <-.
  exists (sorted_reverse snd score_lt ds). split; [done|].
  rewrite Hres'. f_equal.
  rewrite (sorted_reverse_filter snd score_lt lt_asym lt_negtrans). f_equal.
  apply (scored_functional emb we
           (List.filter (fun kv => kept t kv.1) (List.filter (fun kv => f kv.1) d)));
    [done|].
  pose proof (scored_filter emb we f _ _ Hall) as Hf'.
  rewrite (filter_filter_ext _ _ (fun kv => f kv.1 && kept t kv.1)) in Hf'
    by done.
  rewrite (filter_filter_ext _ _ (fun kv => f kv.1 && kept t kv.1)); [done|].
  intros x _. apply andb_comm.
Qed.

End GetCosineSimilarVocabulary.

Section GetCosineSimilarOrder.
Import Utils.
Context {Vec Score : Type} `{!Similarity Vec Score}.

Hypothesis lt_asym : ∀ a b, score_lt a b = true → score_lt b a = false.
Hypothesis lt_negtrans :
  ∀ a b c, score_lt a b = false → score_lt b c = false → score_lt a c = false.

Lemma filter_Permutation {B} (f : B → bool) (l l' : list B) :
  l ≡ₚ l' → List.filter f l ≡ₚ List.filter f l'.
Proof using Type.
  induction 1 as [|x l l' _ IH|x y l|l l' l'' _ IH1 _ IH2]; simpl.
  - done.
  - destruct (f x); [by constructor|done].
  - destruct (f x), (f y); try done. apply perm_swap.
  - by etrans.
Qed.

(** With unique keys, [d[k]] is the value of the one entry for [k]. *)
Lemma dict_getitem_NoDup {V} (d : dict V) k v :
  NoDup (List.map fst d) → In (k, v) d → dict_getitem d k = Ok v.
Proof using Type.
  intros Hnd Hin. destruct (dict_getitem_key d k v Hin) as [v' Hv'].
  rewrite Hv'. f_equal. apply dict_getitem_Ok in Hv'.
  induction d as [|[k0 v0] d IH]; [done|].
  simpl in Hnd. apply NoDup_cons in Hnd as [Hk0 Hnd].
  assert (∀ u, In (k0, u) d → False) as Hfresh.
  { intros u Hu. apply Hk0, list_elem_of_In, in_map_iff. by exists (k0, u). }
  destruct Hin as [Hin|Hin], Hv' as [Hv'|Hv'].
  - congruence.
  - injection Hin as -> ->. by destruct (Hfresh v').
  - injection Hv' as -> ->. by destruct (Hfresh v).
  - by apply IH.
Qed.

(** The pairs the loop appends, as a function of the items. *)
Lemma scored_map emb we items ds :
  Forall2 (scored emb we) items ds →
  ds = List.map (fun item =>
                   (item.1,
                    cos we match tensor_getitem emb item.2 with
                           | Ok r => r
                           | Raise _ => we
                           end)) items.
Proof using Type.
  induction 1 as [|item [w s] items ds [Hw (r & Hr & Hs)] _ IH]; [done|].
  simpl in *. rewrite Hr, <- IH. by subst.
Qed.

(** A list without repetitions whose elements are all equal has at most one
    element, so its arrangements are all the same. *)
Lemma Permutation_all_equal {B} (l l' : list B) :
  NoDup l → (∀ x y, In x l → In y l → x = y) → l ≡ₚ l' → l = l'.
Proof using Type.
  intros Hnd Heq Hperm.
  destruct l as [|x [|y l]].
  - by apply Permutation_nil in Hperm.
  - by apply Permutation_length_1_inv in Hperm.
  - apply NoDup_cons in Hnd as [Hx _]. destruct Hx.
    rewrite (Heq x y); [by left|by left|right; by left].
Qed.

(** X7. With unique keys, iterating the vocabulary in another order gives the
    same pairs, possibly arranged differently; when no two of the scores
    tie, it gives the same list. *)
Theorem get_cosine_similar_vocabulary_order (t : string) (d d' : dict Z)
    (emb : list Vec) (i0 : Z) :
  NoDup (List.map fst d) →
  d ≡ₚ d' →
  indexes_rows d emb →
  dict_getitem d (lower t) = Ok i0 →
  ∃ res res',
    get_cosine_similar t d emb = Ok res ∧
    get_cosine_similar t d' emb = Ok res' ∧
    res ≡ₚ res' ∧
    ((∀ p q, In p res → In q res → tied score_lt p.2 q.2 = true → p = q) →
     res = res').
Proof using lt_asym lt_negtrans.
  intros Hnd Hperm Hrows Hkey.
  destruct (get_cosine_similar_Ok t d emb i0 Hrows Hkey)
    as (we & ds & Hwe & Hall & Hres).
  destruct (get_cosine_similar_Ok t d' emb i0)
    as (we' & ds' & Hwe' & Hall' & Hres').
  { intros w i Hin. apply (Hrows w i).
    by apply (Permutation_in _ (Permutation_sym Hperm)). }
  { apply dict_getitem_NoDup.
    - by rewrite <- Hperm.
    - apply (Permutation_in _ Hperm). by apply dict_getitem_Ok. }
  rewrite Hwe in Hwe'. injection Hwe' as <-.
  set (res := sorted_reverse snd score_lt ds) in *.
  set (res' := sorted_reverse snd score_lt ds') in *.
  assert (res ≡ₚ res') as Hrr.
  { unfold res, res'. rewrite !sorted_reverse_perm.
    rewrite (scored_map _ _ _ _ Hall), (scored_map _ _ _ _ Hall').
    by apply Permutation_map, filter_Permutation. }
  exists res, res'. split; [done|]. split; [done|]. split; [done|].
  intros Hties.
  assert (NoDup res) as Hndr.
  { unfold res. rewrite sorted_reverse_perm.
    apply (NoDup_fmap_1 fst). change (NoDup (List.map fst ds)).
    rewrite (scored_tokens _ _ _ _ Hall), filter_map_fst.
    apply NoDup_ListNoDup, List.NoDup_filter, NoDup_ListNoDup, Hnd. }
  apply (stable_descending_unique snd score_lt lt_asym);
    [by apply sorted_reverse_sorted|by apply sorted_reverse_sorted|].
  intros s. apply Permutation_all_equal.
  - apply NoDup_ListNoDup, List.NoDup_filter, NoDup_ListNoDup, Hndr.
  - intros p q [Hp Hps]%filter_In [Hq Hqs]%filter_In.
    apply Hties; [done|done|].
    unfold tied. rewrite (tied_not_lt score_lt lt_negtrans s _ _ Hps Hqs).
    by rewrite (tied_not_lt score_lt lt_negtrans s _ _ Hqs Hps).
  - by apply filter_Permutation.
Qed.

End GetCosineSimilarOrder.

Section UtilsExamples.
Import Toy QScalar Utils.

Lemma set_seed_everywhere_forgets_witness :
  length (torch_cuda rng_fresh) = length (torch_cuda rng_used) ∧
  set_seed_everywhere rng_fresh = set_seed_everywhere rng_used ∧
  set_seed_everywhere (set_seed_everywhere rng_fresh)
  = set_seed_everywhere rng_fresh.
Proof.
  split; [reflexivity|].
  exact (set_seed_everywhere_forgets rng_fresh rng_used eq_refl).
Defined.

Lemma get_cosine_similar_target_IndexError_witness :
  dict_getitem [("cat", 9); ("dog", 1)] (lower "cat") = Ok 9 ∧
  - 2 ^ 63 ≤ 9 < 2 ^ 63 ∧
  ¬ (- Z.of_nat (length embedding_table) ≤ 9
     < Z.of_nat (length embedding_table)) ∧
  get_cosine_similar "cat" [("cat", 9); ("dog", 1)] embedding_table
  = Raise (IndexError 9 (length embedding_table)).
Proof.
  assert (- 2 ^ 63 ≤ 9 < 2 ^ 63) as Hfit by lia.
  assert (¬ (- Z.of_nat (length embedding_table) ≤ 9
             < Z.of_nat (length embedding_table))) as H.
  { simpl. lia. }
  split; [reflexivity|]. split; [exact Hfit|]. split; [exact H|].
  exact (get_cosine_similar_target_IndexError "cat" [("cat", 9); ("dog", 1)]
           embedding_table 9 eq_refl Hfit H).
Defined.

Lemma get_cosine_similar_loop_IndexError_witness :
  get_cosine_similar "cat" ([("cat", 0); ("<UNK>", 8)] ++ ("dog", 5) :: [("car", 7)])
    embedding_table
  = Raise (IndexError 5 (length embedding_table)).
Proof.
  refine (get_cosine_similar_loop_IndexError "cat" [("cat", 0); ("<UNK>", 8)]
            [("car", 7)] "dog" 5 embedding_table 0 eq_refl _ _ _ _ _ _ _).
  - simpl. lia.
  - intros w' i' [[= <- <-]|[[= <- <-]|[]]] HM HU Ht; [by destruct Ht|by destruct HU].
  - discriminate.
  - discriminate.
  - discriminate.
  - lia.
  - simpl. lia.
Defined.

Lemma vocabulary_no_Cat : ∀ i, In ("Cat", i) vocabulary → "Cat" = lower "Cat".
Proof.
  intros i Hin. simpl in Hin.
  repeat (destruct Hin as [Hin|Hin]; [discriminate Hin|]). done.
Qed.

Lemma get_cosine_similar_case_witness :
  ∃ res res',
    get_cosine_similar "Cat" vocabulary embedding_table = Ok res ∧
    get_cosine_similar (lower "Cat") vocabulary embedding_table = Ok res' ∧
    List.filter (fun p => negb (String.eqb p.1 (lower "Cat"))) res = res'.
Proof.
  exact (get_cosine_similar_case Qltb_asym Qltb_negtrans "Cat" vocabulary
           embedding_table 0 vocabulary_indexes_rows eq_refl vocabulary_no_Cat).
Defined.

Lemma get_cosine_similar_restrict_witness :
  ∃ res,
    get_cosine_similar "cat" vocabulary embedding_table = Ok res ∧
    get_cosine_similar "cat"
      (List.filter (fun kv => negb (String.eqb kv.1 "dog")) vocabulary)
      embedding_table
    = Ok (List.filter (fun p => negb (String.eqb p.1 "dog")) res).
Proof.
  exact (get_cosine_similar_restrict Qltb_asym Qltb_negtrans
           (fun w => negb (String.eqb w "dog")) "cat" vocabulary
           embedding_table 0 vocabulary_indexes_rows eq_refl eq_refl).
Defined.

Lemma vocabulary_NoDup : NoDup (List.map fst vocabulary).
Proof. apply (bool_decide_unpack _). vm_compute. exact I. Qed.

Lemma get_cosine_similar_vocabulary_order_witness :
  ∃ res res',
    get_cosine_similar "car" vocabulary embedding_table = Ok res ∧
    get_cosine_similar "car" (("dog", 1) :: ("cat", 0) :: List.tl (List.tl vocabulary))
      embedding_table = Ok res' ∧
    res ≡ₚ res' ∧
    ((∀ p q, In p res → In q res → tied score_lt p.2 q.2 = true → p = q) →
     res = res').
Proof.
  exact (get_cosine_similar_vocabulary_order Qltb_asym Qltb_negtrans "car"
           vocabulary (("dog", 1) :: ("cat", 0) :: List.tl (List.tl vocabulary))
           embedding_table 2 vocabulary_NoDup (perm_swap _ _ _)
           vocabulary_indexes_rows eq_refl).
Defined.

(** For the target [car] the scores of [cat] and [dog] tie, and the two
    iteration orders give two different lists. *)
Example vocabulary_order_ties :
  get_cosine_similar "car" vocabulary embedding_table
  = Ok [("cat", 0%Q); ("dog", 0%Q)] ∧
  get_cosine_similar "car" (("dog", 1) :: ("cat", 0) :: List.tl (List.tl vocabulary))
    embedding_table
  = Ok [("dog", 0%Q); ("cat", 0%Q)].
Proof. vm_compute. done. Qed.

End UtilsExamples.

(** ** The encoder: construction, failures, repeated calls *)

Section EncoderMore.
Context {F Mask Env : Type} `{!Scalar F} `{!SubLayers F Mask Env}.

Implicit Types (w : World F) (b : EncoderBlock F) (self : CompositeEncoder).

(** The store [__init__] leaves behind, in full. *)
Lemma CompositeEncoder_init_heap layer n w0 self w :
  CompositeEncoder_init layer n w0 = (Ok self, w) →
  ∃ proto copy bn,
    heap w0 !! layer = Some (OBlock proto) ∧
    _layers self = replicate (Z.to_nat n) copy ∧
    heap w0 !! copy = None ∧
    heap w0 !! _add_norm self = None ∧
    copy ≠ _add_norm self ∧
    heap w = <[_add_norm self := OBatchNorm bn]>
               (<[copy := OBlock proto]> (heap w0)) ∧
    env w = env w0.
Proof.
  unfold CompositeEncoder_init, deepcopy. intros Hinit.
  apply St_bind_inv_Ok in Hinit as (copy & w1 & Hcopy & Hinit).
  apply St_bind_inv_Ok in Hcopy as (proto & w0' & Hload & Halloc).
  apply load_block_inv in Hload as [Hproto ->].
  unfold alloc in Halloc. injection Halloc as <- <-.
  set (copy := fresh (dom (heap w0))) in *.
  assert (heap w0 !! copy = None) as Hfresh.
  { apply not_elem_of_dom, is_fresh. }
  apply St_bind_inv_Ok in Hinit as (proto' & w1 & Hload & Hinit).
  apply load_block_inv in Hload as [_ ->].
  apply St_bind_inv_Ok in Hinit as (bn & w1 & Hnew & Hinit).
  unfold lift_result in Hnew. injection Hnew as Hnew <-.
  apply St_bind_inv_Ok in Hinit as (l & w1 & Halloc & Hinit).
  unfold alloc in Halloc. simpl in Halloc. injection Halloc as <- <-.
  injection Hinit as <- <-. simpl.
  set (l := fresh _).
  assert (<[copy := OBlock proto]> (heap w0) !! l = None) as Hl.
  { apply not_elem_of_dom, is_fresh. }
  assert (copy ≠ l) as Hne.
  { intros E. rewrite <- E, lookup_insert_eq in Hl. done. }
  rewrite lookup_insert_ne in Hl by done.
  exists proto, copy, bn. by rewrite list_mul_singleton.
Qed.

(** X8. [__init__] leaves every object that existed as it was and adds two
    objects to the store, one copy of the prototype and one normalization
    module, whatever [num_layers] is; every entry of [_layers] refers to the
    new copy. *)
Theorem CompositeEncoder_init_frame layer n w0 self w :
  CompositeEncoder_init layer n w0 = (Ok self, w) →
  (∀ l o, heap w0 !! l = Some o → heap w !! l = Some o) ∧
  base.size (heap w) = S (S (base.size (heap w0))) ∧
  Forall (fun l => heap w0 !! l = None ∧ heap w !! l = heap w0 !! layer)
    (_layers self) ∧
  length (_layers self) = Z.to_nat n ∧
  env w = env w0.
Proof.
  intros Hinit.
  apply CompositeEncoder_init_heap in Hinit
    as (proto & copy & bn & Hproto & Hlayers & Hcopy & Hnorm & Hne & Hheap & Henv).
  split; [|split; [|split; [|split]]].
  - intros l o Hl. rewrite Hheap.
    rewrite !lookup_insert_ne; [done|congruence|congruence].
  - rewrite Hheap. rewrite !map_size_insert_None; [done|done|].
    by rewrite lookup_insert_ne.
  - rewrite Hlayers. apply Forall_replicate. split; [done|].
    rewrite Hheap, lookup_insert_ne, lookup_insert_eq by done. done.
  - by rewrite Hlayers, length_replicate.
  - done.
Qed.

(** X9. With [num_layers <= 0] the stack has no layers, and [forward] is the
    final normalization of its input. *)
Theorem CompositeEncoder_no_layers layer n w0 self w :
  CompositeEncoder_init layer n w0 = (Ok self, w) →
  n ≤ 0 →
  _layers self = [] ∧
  ∀ values mask w1,
    CompositeEncoder_forward self values mask w1
    = call_batch_norm (_add_norm self) values w1.
Proof.
  intros Hinit Hn.
  apply CompositeEncoder_init_heap in Hinit as (proto & copy & bn & _ & Hlayers & _).
  assert (_layers self = []) as Hnil.
  { rewrite Hlayers. by replace (Z.to_nat n) with 0%nat by lia. }
  split; [done|]. intros values mask w1.
  by rewrite CompositeEncoder_forward_unfold, Hnil.
Qed.

(** The loop reads the store only at the references it runs. *)
Lemma forward_layers_agree layers values mask w w' :
  env w = env w' →
  Forall (fun l => heap w !! l = heap w' !! l) layers →
  (forward_layers layers values mask w).1
  = (forward_layers layers values mask w').1 ∧
  env (forward_layers layers values mask w).2
  = env (forward_layers layers values mask w').2.
Proof.
  revert values w w'.
  induction layers as [|l layers IH]; intros values w w' Henv Hheap; [done|].
  apply Forall_cons in Hheap as [Hl Hheap]. simpl.
  unfold call_layer. unfold mbind, St_bind, load_block, in_env.
  cbv beta. rewrite <- Hl.
  destruct (heap w !! l) as [[b|bn]|]; try done.
  rewrite <- Henv.
  destruct (EncoderBlock_forward b values mask (env w)) as [[v|e] e']; [|done].
  by apply IH.
Qed.

(** X10. The stack does not share its block with the prototype: after
    construction, whatever parameters the prototype is given, [forward]
    returns the same result and has the same effects on the environment; and
    a change of the stack's block leaves the prototype as it was. *)
Theorem CompositeEncoder_independent_of_prototype layer n w0 self w b' values mask :
  CompositeEncoder_init layer n w0 = (Ok self, w) →
  (CompositeEncoder_forward self values mask (set_parameters layer b' w)).1
  = (CompositeEncoder_forward self values mask w).1 ∧
  env (CompositeEncoder_forward self values mask (set_parameters layer b' w)).2
  = env (CompositeEncoder_forward self values mask w).2 ∧
  Forall (fun l => heap (set_parameters l b' w) !! layer = heap w !! layer)
    (_layers self).
Proof.
  intros Hinit.
  apply CompositeEncoder_init_heap in Hinit
    as (proto & copy & bn & Hproto & Hlayers & Hcopy & Hnorm & Hne & Hheap & Henv).
  assert (copy ≠ layer) as Hcl by congruence.
  assert (_add_norm self ≠ layer) as Hnl by congruence.
  set (w' := set_parameters layer b' w).
  destruct (forward_layers_agree (_layers self) values mask w' w) as [Hr He].
  { done. }
  { rewrite Hlayers. apply Forall_replicate. simpl.
    by rewrite lookup_insert_ne. }
  split; [|split].
  - rewrite !CompositeEncoder_forward_unfold.
    destruct (forward_layers _ values mask w') as [r1 w1] eqn:E1.
    destruct (forward_layers _ values mask w) as [r2 w2] eqn:E2.
    simpl in Hr, He. subst r2.
    destruct r1 as [v|e]; [|done].
    apply forward_layers_heap in E1, E2.
    assert (heap w1 !! _add_norm self = Some (OBatchNorm bn)) as H1.
    { rewrite E1. simpl. rewrite lookup_insert_ne by done.
      rewrite Hheap. apply lookup_insert_eq. }
    assert (heap w2 !! _add_norm self = Some (OBatchNorm bn)) as H2.
    { rewrite E2, Hheap. apply lookup_insert_eq. }
    by rewrite (call_batch_norm_Ok _ _ _ _ H1), (call_batch_norm_Ok _ _ _ _ H2).
  - rewrite !CompositeEncoder_forward_unfold.
    destruct (forward_layers _ values mask w') as [r1 w1] eqn:E1.
    destruct (forward_layers _ values mask w) as [r2 w2] eqn:E2.
    simpl in Hr, He. subst r2.
    destruct r1 as [v|e]; [|done].
    apply forward_layers_heap in E1, E2.
    assert (heap w1 !! _add_norm self = Some (OBatchNorm bn)) as H1.
    { rewrite E1. simpl. rewrite lookup_insert_ne by done.
      rewrite Hheap. apply lookup_insert_eq. }
    assert (heap w2 !! _add_norm self = Some (OBatchNorm bn)) as H2.
    { rewrite E2, Hheap. apply lookup_insert_eq. }
    by rewrite (call_batch_norm_Ok _ _ _ _ H1), (call_batch_norm_Ok _ _ _ _ H2).
  - rewrite Hlayers. apply Forall_replicate. simpl.
    by rewrite lookup_insert_ne.
Qed.

(** X11. When a block raises, [forward] raises the same exception: the
    blocks after it are not run and neither is the final normalization, whose
    module is left in the store as it was. *)
Theorem CompositeEncoder_forward_block_raises self layers1 l layers2 values mask w v w1 e w2 :
  _layers self = layers1 ++ l :: layers2 →
  forward_layers layers1 values mask w = (Ok v, w1) →
  call_layer l v mask w1 = (Raise e, w2) →
  CompositeEncoder_forward self values mask w = (Raise e, w2) ∧
  heap w2 = heap w.
Proof.
  intros Hlayers H1 Hl.
  rewrite CompositeEncoder_forward_unfold, Hlayers, forward_layers_app, H1.
  simpl. unfold mbind, St_bind. rewrite Hl. split; [done|].
  apply call_layer_heap in Hl. apply forward_layers_heap in H1. congruence.
Qed.

Lemma running_update_length (f : F) (old new : list F) :
  length old = length new → length (running_update f old new) = length old.
Proof.
  intros Hlen. unfold running_update.
  rewrite length_map, length_combine. lia.
Qed.

(** A call of the normalization module keeps the size of its buffers, its
    parameters and its mode, whether it returns or raises. *)
Lemma BatchNorm1d_forward_keeps (bn : BatchNorm1d F) (input : Tensor F) K :
  norm_ok K bn →
  let bn' := (BatchNorm1d_forward bn input).2 in
  norm_ok K bn' ∧ weight bn' = weight bn ∧ bias bn' = bias bn ∧
  training bn' = training bn ∧
  (is_Some (running_mean bn') ↔ is_Some (running_mean bn)) ∧
  (is_Some (running_var bn') ↔ is_Some (running_var bn)).
Proof.
  intros (Hm & Hv & Hw & Hb). unfold BatchNorm1d_forward.
  destruct (bn_dims (shape input)) as [[[N C] L]|e];
    [|simpl; unfold norm_ok; simpl; intuition].
  unfold batch_norm.
  destruct (uses_batch_stats bn && _); [simpl; unfold norm_ok; simpl; intuition|].
  destruct (has_size C (running_mean bn) && has_size C (running_var bn))
    eqn:Ec; [|simpl; unfold norm_ok; simpl; intuition].
  apply andb_true_iff in Ec as [Ecm Ecv]. cbn [negb].
  destruct (negb _); [simpl; unfold norm_ok; simpl; intuition|].
  destruct (statistics _ _ _ _ _ _) as [means vars] eqn:Es.
  destruct (uses_batch_stats bn) eqn:Eu; [|simpl; unfold norm_ok; simpl; intuition].
  unfold statistics in Es. injection Es as <- <-.
  simpl. unfold norm_ok. simpl.
  destruct (running_mean bn) as [rm|], (running_var bn) as [rv|]; simpl in *;
    rewrite ?running_update_length; rewrite ?length_map, ?length_seq;
    try (by apply Nat.eqb_eq in Ecm); try (by apply Nat.eqb_eq in Ecv);
    unfold is_Some; intuition eauto.
Qed.

(** X12. [forward] keeps the stack in working order: after a call, whether
    it returned or raised, the entries of [_layers] still refer to blocks, and
    the normalization module still has buffers of the same size, the same
    (absent) parameters and the same mode. *)
Theorem CompositeEncoder_forward_keeps self values mask w bn K :
  layers_ok self w →
  heap w !! _add_norm self = Some (OBatchNorm bn) →
  norm_ok K bn →
  let w' := (CompositeEncoder_forward self values mask w).2 in
  layers_ok self w' ∧
  ∃ bn', heap w' !! _add_norm self = Some (OBatchNorm bn') ∧
         norm_ok K bn' ∧ weight bn' = weight bn ∧ bias bn' = bias bn ∧
         training bn' = training bn.
Proof.
  intros Hlayers Hbn Hok. simpl.
  rewrite CompositeEncoder_forward_unfold.
  destruct (forward_layers (_layers self) values mask w) as [[v|e] w1] eqn:E;
    apply forward_layers_heap in E as Hheap.
  - rewrite <- Hheap in Hbn. rewrite (call_batch_norm_Ok _ _ _ _ Hbn). simpl.
    destruct (BatchNorm1d_forward_keeps bn v K Hok) as (Hok' & Hw & Hb & Ht & _).
    split.
    + unfold layers_ok in *. simpl. eapply Forall_impl; [exact Hlayers|].
      intros l [b Hb']. exists b.
      rewrite lookup_insert_ne; [by rewrite Hheap|]. congruence.
    + eexists. rewrite lookup_insert_eq. done.
  - simpl. split.
    + unfold layers_ok in *. by rewrite Hheap.
    + exists bn. by rewrite Hheap.
Qed.

End EncoderMore.

Section BatchNormAccepts.
Context {F : Type} `{!Scalar F}.



End BatchNormAccepts.

Section AcceptClaims.
Context {F Mask Env : Type} `{!Scalar F} `{!SubLayers F Mask Env}.

Implicit Types (w : World F) (b : EncoderBlock F) (self : CompositeEncoder).

Variable compatible : Mask → list nat → Prop.

Hypothesis attention_shape : ∀ p x m e,
  compatible m (shape x) →
  ∃ y e', attention_forward p x x x m e = (Ok y, e') ∧ shape y = shape x.

Hypothesis feed_forward_shape : ∀ p x e,
  ∃ y e', feed_forward_forward p x e = (Ok y, e') ∧ shape y = shape x.

Hypothesis add_norm_shape : ∀ p x f e,
  (∀ x' e1, shape x' = shape x →
            ∃ y e2, f x' e1 = (Ok y, e2) ∧ shape y = shape x) →
  ∃ y e', add_norm_forward p x f e = (Ok y, e') ∧ shape y = shape x.


End AcceptClaims.

Section SpyMore.
Context {F Mask : Type} `{!Scalar F}.

Implicit Types (w : World F (Mask:=Mask)) (b : EncoderBlock F (Mask:=Mask)).

(** X14. On spy sub-modules, the stack that [__init__] builds from a
    prototype runs one and the same block, the copy of the prototype,
    [num_layers] times in a row: attention is called [num_layers] times (not
    at all when [num_layers <= 0]), and the recorded calls are those of the
    prototype's modules. *)
Theorem CompositeEncoder_forward_repeats layer n w0 self w proto (values : Tensor F) (mask : Mask) :
  heap w0 !! layer = Some (OBlock proto) →
  CompositeEncoder_init layer n w0 = (Ok self, w) →
  forward_layers (_layers self) values mask w
  = (Ok (stack_out (replicate (Z.to_nat n) proto) values mask),
     {| heap := heap w;
        env := env w0
               ++ stack_calls (replicate (Z.to_nat n) proto) values mask |}) ∧
  length (attention_masks
            (stack_calls (replicate (Z.to_nat n) proto) values mask))
  = Z.to_nat n.
Proof.
  intros Hproto Hinit.
  apply CompositeEncoder_init_inv in Hinit
    as (proto' & copy & bn & Hproto' & Hlayers & _ & _ & _ & Hcopy & _ & _ & _ & Henv).
  rewrite Hproto in Hproto'. injection Hproto' as <-.
  split.
  - rewrite <- Henv. apply forward_layers_spy.
    rewrite Hlayers. by apply Forall2_replicate.
  - by rewrite attention_masks_stack, !length_replicate.
Qed.

End SpyMore.

Section ToyMore.
Import Toy QScalar.
#[local] Existing Instance toy_sublayers.

Lemma init_encoder0 :
  CompositeEncoder_init 0%nat 0 world0 = (Ok encoder0, world2).
Proof. vm_compute. reflexivity. Qed.

Lemma CompositeEncoder_init_frame_witness :
  (∀ l o, heap world0 !! l = Some o → heap world2 !! l = Some o) ∧
  base.size (heap world2) = S (S (base.size (heap world0))) ∧
  Forall (fun l => heap world0 !! l = None ∧
                   heap world2 !! l = heap world0 !! 0%nat)
    (_layers encoder2) ∧
  length (_layers encoder2) = Z.to_nat 2 ∧
  env world2 = env world0.
Proof.
  exact (CompositeEncoder_init_frame 0%nat 2 world0 encoder2 world2
           init_encoder2).
Defined.

Lemma CompositeEncoder_no_layers_witness :
  _layers encoder0 = [] ∧
  ∀ values mask w1,
    CompositeEncoder_forward encoder0 values mask w1
    = call_batch_norm (_add_norm encoder0) values w1.
Proof.
  refine (CompositeEncoder_no_layers 0%nat 0 world0 encoder0 world2
            init_encoder0 _).
  lia.
Defined.

Lemma CompositeEncoder_independent_of_prototype_witness :
  (CompositeEncoder_forward encoder2 values_1_3_3 tt
     (set_parameters 0%nat (block 0) world2)).1
  = (CompositeEncoder_forward encoder2 values_1_3_3 tt world2).1 ∧
  env (CompositeEncoder_forward encoder2 values_1_3_3 tt
         (set_parameters 0%nat (block 0) world2)).2
  = env (CompositeEncoder_forward encoder2 values_1_3_3 tt world2).2 ∧
  Forall (fun l => heap (set_parameters l (block 0) world2) !! 0%nat
                   = heap world2 !! 0%nat)
    (_layers encoder2).
Proof.
  exact (CompositeEncoder_independent_of_prototype 0%nat 2 world0 encoder2
           world2 (block 0) values_1_3_3 tt init_encoder2).
Defined.

Lemma norm0_ok : norm_ok 3 norm0.
Proof. repeat split. Qed.

Lemma CompositeEncoder_forward_keeps_witness :
  let w' := (CompositeEncoder_forward encoder2 values_1_3_3 tt world2).2 in
  layers_ok encoder2 w' ∧
  ∃ bn', heap w' !! _add_norm encoder2 = Some (OBatchNorm bn') ∧
         norm_ok 3 bn' ∧ weight bn' = weight norm0 ∧ bias bn' = bias norm0 ∧
         training bn' = training norm0.
Proof.
  exact (CompositeEncoder_forward_keeps encoder2 values_1_3_3 tt world2 norm0
           3%nat encoder2_layers_ok eq_refl norm0_ok).
Defined.


(** A 2-D input with [size] columns is accepted; its three columns are the
    channels. *)
Example forward_2_3 :
  (CompositeEncoder_forward encoder2 values_2_3 tt world2).1
  = Ok {| shape := [2; 3]%nat;
          data := [-48000 # 48000; -48000 # 48000; -48000 # 48000;
                   48000 # 48000; 48000 # 48000; 48000 # 48000]%Q |}.
Proof. vm_compute. reflexivity. Qed.

End ToyMore.

Section CheckedExamples.
Import Toy QScalar.
#[local] Existing Instance checked_sublayers.

Lemma checked_block_raises :
  call_layer 1%nat values_2_3 tt checked_world
  = (Raise (RuntimeError "expected a 3-D query"), checked_world).
Proof. vm_compute. reflexivity. Qed.

Lemma CompositeEncoder_forward_block_raises_witness :
  CompositeEncoder_forward encoder2 values_2_3 tt checked_world
  = (Raise (RuntimeError "expected a 3-D query"), checked_world) ∧
  heap checked_world = heap checked_world.
Proof.
  exact (CompositeEncoder_forward_block_raises encoder2 [] 1%nat [1%nat]
           values_2_3 tt checked_world values_2_3 checked_world
           (RuntimeError "expected a 3-D query") checked_world
           eq_refl eq_refl checked_block_raises).
Defined.

End CheckedExamples.

Section SpyMoreExamples.
Import Toy QScalar.

Lemma init_spy_encoder2 :
  CompositeEncoder_init 0%nat 2 spy_world0 = (Ok encoder2, spy_world2).
Proof. vm_compute. reflexivity. Qed.

Lemma CompositeEncoder_forward_repeats_witness :
  forward_layers (_layers encoder2) values_1_2_3 7%nat spy_world2
  = (Ok (stack_out (replicate (Z.to_nat 2) spy_block) values_1_2_3 7%nat),
     {| heap := heap spy_world2;
        env := env spy_world0
               ++ stack_calls (replicate (Z.to_nat 2) spy_block)
                    values_1_2_3 7%nat |}) ∧
  length (attention_masks
            (stack_calls (replicate (Z.to_nat 2) spy_block) values_1_2_3 7%nat))
  = Z.to_nat 2.
Proof.
  exact (CompositeEncoder_forward_repeats 0%nat 2 spy_world0 encoder2
           spy_world2 spy_block values_1_2_3 7%nat eq_refl init_spy_encoder2).
Defined.

End SpyMoreExamples.
